(** * PesaMirror voice-command pipeline

    A shallow embedding of the web client's voice pipeline:

    - [lib/intent.ts]: [parseIntent], [normalizeAmount], [describeIntent];
    - [lib/voice-contacts.ts]: [getVoiceContacts], [initVoiceContacts],
      [saveVoiceContact], [deleteVoiceContact], [clearVoiceContacts],
      [resolvePhoneOrName], [resolveContact], [isPhoneNumber],
      [normalizePhone];
    - [hooks/use-voice-command.ts]: the [useVoiceCommand] hook, with the
      asynchronous [start] cut at its three [await]s and the
      [saveVoiceContact] it does not await cut at its own;
    - [lib/fcm.ts]: the access token cache of [getAccessToken].

    Strings are sequences of code units.  The development covers the code
    units 0..255 (ASCII and Latin-1), on which [trim], [toLowerCase] and the
    RegExp classes used by the source are defined below exactly as
    ECMAScript defines them. *)

From Stdlib Require Import String Ascii Bool Arith Lia NArith List.
Import ListNotations.
Open Scope string_scope.
Open Scope list_scope.
Open Scope nat_scope.


(** ** Code units and strings *)

Definition str := list ascii.

Coercion list_ascii_of_string : string >-> list.

Definition code (c : ascii) : nat := nat_of_ascii c.

Definition in_range (lo hi : nat) (c : ascii) : bool :=
  (lo <=? code c) && (code c <=? hi).

(** [\d] *)
Definition is_digit (c : ascii) : bool := in_range 48 57 c.

Definition is_upper (c : ascii) : bool := in_range 65 90 c.
Definition is_lower (c : ascii) : bool := in_range 97 122 c.

(** [[a-z]] under the [i] flag: canonicalisation never maps a code unit
    above 127 to an ASCII letter, so only the 52 ASCII letters match. *)
Definition is_alpha (c : ascii) : bool := is_upper c || is_lower c.

(** [\w] *)
Definition is_word (c : ascii) : bool :=
  is_alpha c || is_digit c || (code c =? 95).

(** [\s], which is also the set [trim] removes: TAB, LF, VT, FF, CR, SP and
    NBSP are the white space and line terminators below 256. *)
Definition is_space (c : ascii) : bool :=
  in_range 9 13 c || (code c =? 32) || (code c =? 160).

Definition is_char (x : ascii) (c : ascii) : bool := code c =? code x.

(** ASCII case folding, as the [i] flag applies it to an ASCII pattern
    character. *)
Definition fold_case (c : ascii) : ascii :=
  if is_upper c then ascii_of_nat (code c + 32) else c.

Definition ci_char (x : ascii) (c : ascii) : bool :=
  code (fold_case c) =? code (fold_case x).

(** [String.prototype.toLowerCase] on one code unit below 256: the ASCII
    capitals and the Latin-1 capitals U+00C0..U+00DE other than U+00D7. *)
Definition lower_char (c : ascii) : ascii :=
  if is_upper c || (in_range 192 222 c && negb (code c =? 215))
  then ascii_of_nat (code c + 32) else c.

Definition toLowerCase (s : str) : str := map lower_char s.

Fixpoint drop_space (s : str) : str :=
  match s with
  | c :: s' => if is_space c then drop_space s' else s
  | [] => []
  end.

Definition trim (s : str) : str := rev (drop_space (rev (drop_space s))).

Fixpoint str_eqb (a b : str) : bool :=
  match a, b with
  | [], [] => true
  | x :: a', y :: b' => (code x =? code y) && str_eqb a' b'
  | _, _ => false
  end.

(** [s.startsWith(p)] *)
Fixpoint startsWith (s p : str) {struct p} : bool :=
  match p, s with
  | [], _ => true
  | x :: p', y :: s' => (code y =? code x) && startsWith s' p'
  | _ :: _, [] => false
  end.

(** [s.split(/\s+/)]: the pieces between maximal runs of white space; a
    run at either end leaves an empty piece there, and the empty string
    splits into one empty piece.  [in_run] tells that the previous code unit
    belonged to a separator. *)
Fixpoint split_from (in_run : bool) (s : str) : list str :=
  match s with
  | [] => [[]]
  | c :: s' =>
      if is_space c then
        if in_run then split_from true s' else [] :: split_from true s'
      else
        match split_from false s' with
        | w :: ws => (c :: w) :: ws
        | [] => [[c]]
        end
  end.

Definition split_ws (s : str) : list str := split_from false s.

(** [s.replace(/[...]/g, '')] for a one-character class. *)
Definition strip (cls : ascii -> bool) (s : str) : str :=
  filter (fun c => negb (cls c)) s.

(** ** Regular expressions

    The fragment of ECMAScript RegExp the source uses, with its
    backtracking order.  Every quantifier of the source ranges over a
    character class, except [?], which is [Opt]. *)

Inductive regex : Type :=
| Eps
| Cls (c : ascii -> bool)
| Seq (a b : regex)
| Alt (a b : regex)
| Opt (a : regex)
| Many (greedy : bool) (lo : nat) (hi : option nat) (c : ascii -> bool)
| Cap (n : nat) (a : regex)
| Eos.

Infix ">>" := Seq (at level 61, right associativity).

(** A literal under the [i] flag. *)
Fixpoint lit (w : str) : regex :=
  match w with
  | [] => Eps
  | x :: w' => Cls (ci_char x) >> lit w'
  end.

Definition plus (c : ascii -> bool) : regex := Many true 1 None c.
Definition star (c : ascii -> bool) : regex := Many true 0 None c.
Definition lazy_plus (c : ascii -> bool) : regex := Many false 1 None c.
Definition lazy_star (c : ascii -> bool) : regex := Many false 0 None c.

Definition captures := list (nat * str).

Fixpoint group (n : nat) (cs : captures) : option str :=
  match cs with
  | [] => None
  | (m, w) :: cs' => if m =? n then Some w else group n cs'
  end.

Definition orelse {A} (x : option A) (y : option A) : option A :=
  match x with Some _ => x | None => y end.

Definition below (hi : option nat) : bool :=
  match hi with Some 0 => false | _ => true end.

Definition dec (hi : option nat) : option nat := option_map pred hi.

Section Matcher.

Variable k : str -> captures -> option captures.
Variable cs : captures.

(** [c{lo,hi}] and its lazy form [c{lo,hi}?], followed by [k]. *)
Fixpoint many (greedy : bool) (c : ascii -> bool) (s : str)
         (lo : nat) (hi : option nat) : option captures :=
  let stop := if lo =? 0 then k s cs else None in
  let more :=
    match s with
    | x :: s' =>
        if c x && below hi then many greedy c s' (pred lo) (dec hi)
        else None
    | [] => None
    end in
  if greedy then orelse more stop else orelse stop more.

End Matcher.

(** [run r k s cs]: match [r] at the front of [s], then [k] on the rest;
    alternatives are tried in the order a backtracking matcher tries them. *)
Fixpoint run (r : regex) (k : str -> captures -> option captures)
         (s : str) (cs : captures) : option captures :=
  match r with
  | Eps => k s cs
  | Cls c =>
      match s with
      | x :: s' => if c x then k s' cs else None
      | [] => None
      end
  | Seq a b => run a (run b k) s cs
  | Alt a b => orelse (run a k s cs) (run b k s cs)
  | Opt a => orelse (run a k s cs) (k s cs)
  | Many g lo hi c => many k cs g c s lo hi
  | Cap n a =>
      run a (fun s' cs' =>
               k s' ((n, firstn (length s - length s') s) :: cs')) s cs
  | Eos =>
      match s with
      | [] => k s cs
      | _ :: _ => None
      end
  end.

Definition accept : str -> captures -> option captures :=
  fun _ cs => Some cs.

(** [s.match(/^r/)] *)
Definition match_at_start (r : regex) (s : str) : option captures :=
  run r accept s [].

(** [s.match(/r/)], the leftmost match. *)
Fixpoint search (r : regex) (s : str) : option captures :=
  match match_at_start r s with
  | Some cs => Some cs
  | None =>
      match s with
      | [] => None
      | _ :: s' => search r s'
      end
  end.

Definition is_some {A} (x : option A) : bool :=
  match x with Some _ => true | None => false end.

(** [/^r/.test(s)] *)
Definition test (r : regex) (s : str) : bool := is_some (match_at_start r s).

(** JavaScript truthiness of a string that may be absent. *)
Definition truthy (x : option str) : bool :=
  match x with
  | Some (_ :: _) => true
  | _ => false
  end.

(** ** lib/intent.ts *)

Inductive ParsedIntent : Type :=
| SEND_MONEY (amount phone : str)
| POCHI (amount phone : str)
| PAYBILL (amount business account : str)
| TILL (amount till : str)
| WITHDRAW (amount agent store : str)
| NAMED_PAYMENT (amount contactName : str).

Definition amount (i : ParsedIntent) : str :=
  match i with
  | SEND_MONEY a _ | POCHI a _ | PAYBILL a _ _ | TILL a _
  | WITHDRAW a _ _ | NAMED_PAYMENT a _ => a
  end.

Definition concrete (i : ParsedIntent) : bool :=
  match i with
  | NAMED_PAYMENT _ _ => false
  | _ => true
  end.

Definition comma_or_dot (c : ascii) : bool := is_char "," c || is_char "." c.

(** The three capture fragments; [n] is the number the group gets in the
    pattern it is spliced into. *)
Definition AMOUNT_RE (n : nat) : regex :=
  Cap n (plus is_digit >> Opt (Cls comma_or_dot >> plus is_digit)).

Definition PHONE_OR_NAME_RE (n : nat) : regex :=
  Cap n (lazy_plus (fun c => is_word c || is_space c)).

Definition NUMBER_RE (n : nat) : regex := Cap n (plus is_digit).

Definition send_re : regex :=
  lit "send" >> plus is_space >> AMOUNT_RE 1 >> plus is_space >>
  Opt (Alt (lit "shilling" >> Opt (lit "s")) (Alt (lit "bob") (lit "kes"))) >>
  star is_space >> lit "to" >> plus is_space >> PHONE_OR_NAME_RE 2 >> Eos.

Definition pochi_re : regex :=
  lit "pochi" >> plus is_space >> AMOUNT_RE 1 >> plus is_space >>
  lit "to" >> plus is_space >> PHONE_OR_NAME_RE 2 >> Eos.

Definition paybill_re : regex :=
  lit "pay" >> star is_space >> lit "bill" >> plus is_space >>
  NUMBER_RE 1 >> plus is_space >> lit "account" >> plus is_space >>
  NUMBER_RE 2 >> plus is_space >> Opt (lit "amount" >> plus is_space) >>
  AMOUNT_RE 3 >> Eos.

Definition till_re : regex :=
  Alt (lit "pay" >> plus is_space >> lit "till")
      (lit "buy" >> plus is_space >> lit "goods") >>
  plus is_space >> NUMBER_RE 1 >> plus is_space >>
  Opt (lit "amount" >> plus is_space) >> AMOUNT_RE 2 >> Eos.

Definition withdraw_re : regex :=
  lit "withdraw" >> plus is_space >> AMOUNT_RE 1 >> plus is_space >>
  lit "agent" >> plus is_space >> NUMBER_RE 2 >> plus is_space >>
  lit "store" >> plus is_space >> NUMBER_RE 3 >> Eos.

Definition named_re : regex :=
  Alt (lit "pay")
      (lit "buy" >> plus is_space >> Alt (lit "at") (lit "from")) >>
  plus is_space >>
  Cap 1 (Cls is_alpha >>
         lazy_star (fun c => is_alpha c || is_digit c || is_space c)) >>
  plus is_space >> Opt (lit "amount" >> plus is_space) >> AMOUNT_RE 2 >> Eos.

(** Strip commas from spoken numbers like "1,000". *)
Definition normalizeAmount (raw : str) : str := strip (is_char ",") raw.

(** [m[n]] of a successful match.  Every group of the patterns above takes
    part in every match, so the [None] case stands for no JavaScript
    value. *)
Definition grp (n : nat) (m : captures) : str :=
  match group n m with Some w => w | None => [] end.

Definition parseIntent (transcript : str) : option ParsedIntent :=
  let t := trim transcript in
  match match_at_start send_re t with
  | Some m => Some (SEND_MONEY (normalizeAmount (grp 1 m)) (trim (grp 2 m)))
  | None =>
  match match_at_start pochi_re t with
  | Some m => Some (POCHI (normalizeAmount (grp 1 m)) (trim (grp 2 m)))
  | None =>
  match match_at_start paybill_re t with
  | Some m => Some (PAYBILL (normalizeAmount (grp 3 m)) (grp 1 m) (grp 2 m))
  | None =>
  match match_at_start till_re t with
  | Some m => Some (TILL (normalizeAmount (grp 2 m)) (grp 1 m))
  | None =>
  match match_at_start withdraw_re t with
  | Some m =>
      Some (WITHDRAW (normalizeAmount (grp 1 m)) (grp 2 m) (grp 3 m))
  | None =>
  match match_at_start named_re t with
  | Some m =>
      Some (NAMED_PAYMENT (normalizeAmount (grp 2 m)) (trim (grp 1 m)))
  | None => None
  end end end end end end.

(** Human-readable summary of a parsed intent for TTS confirmation. *)
Definition describeIntent (i : ParsedIntent) : str :=
  match i with
  | SEND_MONEY a p => "Send " ++ a ++ " shillings to " ++ p ++ "."
  | POCHI a p => "Pochi " ++ a ++ " shillings to " ++ p ++ "."
  | PAYBILL a b acc =>
      "Pay bill " ++ b ++ ", account " ++ acc ++ ", amount " ++ a ++
      " shillings."
  | TILL a t => "Buy goods at till " ++ t ++ ", amount " ++ a ++ " shillings."
  | WITHDRAW a ag st =>
      "Withdraw " ++ a ++ " shillings from agent " ++ ag ++ ", store " ++
      st ++ "."
  | NAMED_PAYMENT a n => "Pay " ++ a ++ " shillings to " ++ n ++ "."
  end.


(** ** lib/voice-contacts.ts *)

Inductive ContactType : Type := mobile | pochi | till | paybill.

Record VoiceContact : Type := {
  name : str;
  type : option ContactType;
  phone : str;
  accountNumber : option str
}.

(** The module state: the in-memory [_cache], the contact list held by
    [sessionStorage] under [SESSION_KEY] (absent when the item is missing,
    empty or not parseable), and whether [encryptPlaintext] succeeds, on
    which [persistContacts] depends. *)
Record Store : Type := {
  cache : option (list VoiceContact);
  sessionItem : option (list VoiceContact);
  encrypts : bool
}.

(** Synchronous read: the cache, filled from the session on a miss. *)
Definition getVoiceContacts (st : Store) : list VoiceContact * Store :=
  match cache st with
  | Some cs => (cs, st)
  | None =>
      match sessionItem st with
      | Some cs =>
          (cs, {| cache := Some cs; sessionItem := sessionItem st;
                  encrypts := encrypts st |})
      | None => ([], st)
      end
  end.

Definition contacts (st : Store) : list VoiceContact :=
  fst (getVoiceContacts st).

Definition persistContacts (cs : list VoiceContact) (st : Store) : Store :=
  if encrypts st
  then {| cache := Some cs; sessionItem := Some cs; encrypts := true |}
  else st.

Definition phone_class (c : ascii) : bool :=
  is_char "+" c || is_digit c || is_space c || is_char "-" c ||
  is_char "(" c || is_char ")" c.

Definition separator (c : ascii) : bool :=
  is_space c || is_char "-" c || is_char "(" c || is_char ")" c.

Definition phone_re : regex := Many true 7 (Some 15) phone_class >> Eos.

Definition isPhoneNumber (s : str) : bool := test phone_re s.

Definition normalizePhone (phone : str) : str :=
  let p := strip separator phone in
  if startsWith p "+254" then "0" ++ skipn 4 p else p.

Definition is_mobile_type (t : option ContactType) : bool :=
  match t with
  | None | Some mobile | Some pochi => true
  | Some till | Some paybill => false
  end.

Definition same_name (a b : str) : bool :=
  str_eqb (toLowerCase a) (toLowerCase b).

(** [contacts.findIndex(...)], then [updated[existing] = entry] or
    [updated.push(entry)]. *)
Fixpoint upsert (entry : VoiceContact) (cs : list VoiceContact)
  : list VoiceContact :=
  match cs with
  | [] => [entry]
  | c :: cs' =>
      if same_name (name c) (name entry) then entry :: cs'
      else c :: upsert entry cs'
  end.

(** Lines 516-523: the entry [saveVoiceContact] writes for a contact. *)
Definition entry_of (contact : VoiceContact) : VoiceContact :=
  {| name := name contact;
     type := Some (match type contact with Some t => t | None => mobile end);
     phone :=
       if is_mobile_type (type contact) then normalizePhone (phone contact)
       else strip is_space (phone contact);
     accountNumber :=
       match accountNumber contact with
       | Some a => match trim a with [] => None | t => Some t end
       | None => None
       end |}.

(** [saveVoiceContact] up to the [await] inside [persistContacts]: the
    list is read and the updated list is built at once, when the function
    is called. *)
Definition beginSave (contact : VoiceContact) (st : Store)
  : list VoiceContact * Store :=
  let (cs, st) := getVoiceContacts st in
  (upsert (entry_of contact) cs, st).

(** [saveVoiceContact] awaited, with nothing running in between. *)
Definition saveVoiceContact (contact : VoiceContact) (st : Store) : Store :=
  let (updated, st) := beginSave contact st in
  persistContacts updated st.

Definition deleteVoiceContact (n : str) (st : Store) : Store :=
  let (cs, st) := getVoiceContacts st in
  persistContacts (filter (fun c => negb (same_name (name c) n)) cs) st.

(** The three lookups both resolvers run, in this order, over their
    candidates; [lower] is the trimmed, lower-cased query. *)
Definition exact_match (lower : str) (c : VoiceContact) : bool :=
  str_eqb (toLowerCase (name c)) lower.

Definition prefix_match (lower : str) (c : VoiceContact) : bool :=
  startsWith (toLowerCase (name c)) lower.

Definition overlap_match (lower : str) (c : VoiceContact) : bool :=
  let queryWords := split_ws lower in
  let nameWords := split_ws (toLowerCase (name c)) in
  forallb (fun w => existsb (fun nw => startsWith nw w) nameWords) queryWords.

Definition lookup (lower : str) (cs : list VoiceContact)
  : option VoiceContact :=
  match find (exact_match lower) cs with
  | Some c => Some c
  | None =>
      match find (prefix_match lower) cs with
      | Some c => Some c
      | None => find (overlap_match lower) cs
      end
  end.

Definition resolvePhoneOrName (query : str) (st : Store)
  : option str * Store :=
  let cleaned := trim query in
  if isPhoneNumber cleaned then (Some (normalizePhone cleaned), st)
  else
    let (all, st) := getVoiceContacts st in
    let cs := filter (fun c => is_mobile_type (type c)) all in
    (option_map phone (lookup (toLowerCase cleaned) cs), st).

Definition resolveContact (query : str) (st : Store)
  : option VoiceContact * Store :=
  let (cs, st) := getVoiceContacts st in
  (lookup (toLowerCase (trim query)) cs, st).

(** ** hooks/use-voice-command.ts *)

Inductive VoiceCommandState : Type :=
| idle | listening | processing | confirming | awaiting_confirmation | error.

(** What the hook does to its collaborators, in the order it does it.
    [Dismiss] is the optional [onDismiss]. *)
Inductive Effect : Type :=
| Speak (text : str)
| CancelSpeech
| SaveVoiceContact (c : VoiceContact)
| Dismiss
| Submit (intent : ParsedIntent).

(** The React state and refs of one hook instance, the contact module's
    state, the lists that calls of [saveVoiceContact] which were not
    awaited have still to write (oldest first), and the calls made so far
    (oldest first). *)
Record World : Type := {
  state : VoiceCommandState;
  transcript : str;
  pendingIntent : option ParsedIntent;
  errorMessage : str;
  pendingIntentRef : option ParsedIntent;
  transcriptRef : str;
  store : Store;
  saving : list (list VoiceContact);
  effects : list Effect
}.

Definition setState (x : VoiceCommandState) (w : World) : World :=
  {| state := x; transcript := transcript w;
     pendingIntent := pendingIntent w; errorMessage := errorMessage w;
     pendingIntentRef := pendingIntentRef w;
     transcriptRef := transcriptRef w; store := store w;
     saving := saving w; effects := effects w |}.

Definition setTranscript (x : str) (w : World) : World :=
  {| state := state w; transcript := x;
     pendingIntent := pendingIntent w; errorMessage := errorMessage w;
     pendingIntentRef := pendingIntentRef w;
     transcriptRef := transcriptRef w; store := store w;
     saving := saving w; effects := effects w |}.

Definition setPendingIntent (x : option ParsedIntent) (w : World) : World :=
  {| state := state w; transcript := transcript w;
     pendingIntent := x; errorMessage := errorMessage w;
     pendingIntentRef := pendingIntentRef w;
     transcriptRef := transcriptRef w; store := store w;
     saving := saving w; effects := effects w |}.

Definition setErrorMessage (x : str) (w : World) : World :=
  {| state := state w; transcript := transcript w;
     pendingIntent := pendingIntent w; errorMessage := x;
     pendingIntentRef := pendingIntentRef w;
     transcriptRef := transcriptRef w; store := store w;
     saving := saving w; effects := effects w |}.

Definition setPendingIntentRef (x : option ParsedIntent) (w : World)
  : World :=
  {| state := state w; transcript := transcript w;
     pendingIntent := pendingIntent w; errorMessage := errorMessage w;
     pendingIntentRef := x;
     transcriptRef := transcriptRef w; store := store w;
     saving := saving w; effects := effects w |}.

Definition setTranscriptRef (x : str) (w : World) : World :=
  {| state := state w; transcript := transcript w;
     pendingIntent := pendingIntent w; errorMessage := errorMessage w;
     pendingIntentRef := pendingIntentRef w;
     transcriptRef := x; store := store w;
     saving := saving w; effects := effects w |}.

Definition setStore (x : Store) (w : World) : World :=
  {| state := state w; transcript := transcript w;
     pendingIntent := pendingIntent w; errorMessage := errorMessage w;
     pendingIntentRef := pendingIntentRef w;
     transcriptRef := transcriptRef w; store := x;
     saving := saving w; effects := effects w |}.

Definition setSaving (x : list (list VoiceContact)) (w : World) : World :=
  {| state := state w; transcript := transcript w;
     pendingIntent := pendingIntent w; errorMessage := errorMessage w;
     pendingIntentRef := pendingIntentRef w;
     transcriptRef := transcriptRef w; store := store w;
     saving := x; effects := effects w |}.

Definition emit (e : Effect) (w : World) : World :=
  {| state := state w; transcript := transcript w;
     pendingIntent := pendingIntent w; errorMessage := errorMessage w;
     pendingIntentRef := pendingIntentRef w;
     transcriptRef := transcriptRef w; store := store w;
     saving := saving w; effects := effects w ++ [e] |}.

(** Statements in sequence. *)
Notation "w |> f" := (f w) (at level 45, left associativity, only parsing).

Definition reset (w : World) : World :=
  w |> setState idle |> setTranscript [] |> setPendingIntent None
    |> setPendingIntentRef None |> setTranscriptRef [] |> setErrorMessage [].

Definition setError (msg : str) (w : World) : World :=
  w |> setState error |> setErrorMessage msg |> emit (Speak msg).

(** [/to\s+([a-z\s]+?)(?:\s*$)/i], searched anywhere in the transcript. *)
Definition name_re : regex :=
  lit "to" >> plus is_space >>
  Cap 1 (lazy_plus (fun c => is_alpha c || is_space c)) >>
  star is_space >> Eos.

Definition has_phone (i : ParsedIntent) : option str :=
  match i with
  | SEND_MONEY _ p | POCHI _ p => Some p
  | _ => None
  end.

(** [saveVoiceContact] is called and not awaited: what it has still to
    write is left in [saving]. *)
Definition executeConfirm (intent : ParsedIntent) (raw : str) (w : World)
  : World :=
  let rawName := option_map (fun m => trim (grp 1 m)) (search name_re raw) in
  let w :=
    match rawName, has_phone intent with
    | Some n, Some p =>
        if truthy rawName && negb (test (Cls is_digit) n) then
          let c := {| name := n; type := None; phone := p;
                      accountNumber := None |} in
          let (updated, st) := beginSave c (store w) in
          w |> emit (SaveVoiceContact c) |> setStore st
            |> setSaving (saving w ++ [updated])
        else w
    | _, _ => w
    end in
  w |> emit CancelSpeech
    |> emit (Speak "Perfect, sending now via remote push.")
    |> reset |> emit Dismiss |> emit (Submit intent).

(** The outcome of one [listenOnce]: a transcript, or a rejection, which
    carries a message when it is an [Error]. *)
Inductive Capture : Type :=
| Heard (text : str)
| CaptureError (message : option str).

Definition readback_prompt (i : ParsedIntent) : str :=
  describeIntent i ++ " Say yes to confirm, or no to cancel.".

(** [start] up to its first [await]; [true] when it is now waiting for the
    command to be captured. *)
Definition start (isSupported : bool) (w : World) : World * bool :=
  if negb isSupported then
    (setError
       "Voice commands are not supported in this browser. Try Chrome or Safari."
       w, false)
  else
    (w |> emit CancelSpeech |> setState listening |> setTranscript []
       |> setPendingIntent None |> setPendingIntentRef None
       |> setTranscriptRef [] |> setErrorMessage [], true).

(** Lines 164-169 and 192-199: hold the intent, read it back. *)
Definition read_back (intent : ParsedIntent) (w : World) : World :=
  w |> setPendingIntent (Some intent) |> setPendingIntentRef (Some intent)
    |> setState confirming |> emit (Speak (readback_prompt intent)).

(** A string between double quotes. *)
Definition quoted (s : str) : str :=
  ascii_of_nat 34 :: s ++ [ascii_of_nat 34].

(** Lines 139-163: the concrete intent a named payment stands for, or the
    message of the error that ends the session. *)
Definition rewrite_named (amount contactName : str)
           (contact : option VoiceContact) : ParsedIntent + str :=
  match contact with
  | None =>
      inr ("I couldn't find " ++ quoted contactName ++
           " in your contacts. Add it first under Voice Contacts.")
  | Some c =>
      match type c with
      | Some till => inl (TILL amount (phone c))
      | Some paybill =>
          if truthy (accountNumber c) then
            inl (PAYBILL amount (phone c)
                         (match accountNumber c with
                          | Some a => a
                          | None => []
                          end))
          else
            inr (name c ++
                 " needs an account number. Edit the contact to add one, or say: pay bill "
                 ++ phone c ++ " account <number> " ++ amount)
      | Some pochi => inl (POCHI amount (phone c))
      | Some mobile | None => inl (SEND_MONEY amount (phone c))
      end
  end.

(** Lines 126-136: the phone of a SEND_MONEY or POCHI intent, resolved. *)
Definition resolve_phone (p : str) (w : World) : option str * World :=
  let (resolved, st) := resolvePhoneOrName p (store w) in
  let w := setStore st w in
  if truthy resolved then (resolved, w)
  else if negb (test (Cls is_digit)
                     (strip (fun c => separator c || is_char "+" c) p))
  then (None, w)
  else (Some p, w).

Definition not_found (p : str) : str :=
  "I couldn't find " ++ quoted p ++
  " in your contacts. Add them first, or say a phone number directly.".

(** [start] between its first and second [await]: the command has been
    captured or not.  The result holds the intent and transcript the
    rest of [start] keeps in its local variables while it waits for the
    readback to finish; [None] when [start] has returned. *)
Definition heard_command (o : Capture) (w : World)
  : World * option (ParsedIntent * str) :=
  match o with
  | CaptureError m =>
      (setError (match m with
                 | Some msg => msg
                 | None => "Could not capture audio."
                 end) w, None)
  | Heard raw =>
      let w := w |> setTranscript raw |> setTranscriptRef raw
                 |> setState processing in
      match parseIntent raw with
      | None =>
          (setError
             "Sorry, I didn't catch that. Try: send 500 shillings to 0712345678."
             w, None)
      | Some (SEND_MONEY a p) =>
          match resolve_phone p w with
          | (Some p', w) =>
              (read_back (SEND_MONEY a p') w, Some (SEND_MONEY a p', raw))
          | (None, w) => (setError (not_found p) w, None)
          end
      | Some (POCHI a p) =>
          match resolve_phone p w with
          | (Some p', w) => (read_back (POCHI a p') w, Some (POCHI a p', raw))
          | (None, w) => (setError (not_found p) w, None)
          end
      | Some (NAMED_PAYMENT a n) =>
          let (contact, st) := resolveContact n (store w) in
          let w := setStore st w in
          match rewrite_named a n contact with
          | inl resolvedIntent =>
              (read_back resolvedIntent w, Some (resolvedIntent, raw))
          | inr msg => (setError msg w, None)
          end
      | Some intent => (read_back intent w, Some (intent, raw))
      end
  end.

(** [start] between its second and third [await]: the readback is over,
    spoken or not. *)
Definition spoken (w : World) : World := setState awaiting_confirmation w.

Definition affirm_re : regex :=
  Cap 1 (Alt (lit "yes") (Alt (lit "yeah") (Alt (lit "yep") (Alt (lit "yup")
        (Alt (lit "confirm") (Alt (lit "send") (Alt (lit "do it")
        (Alt (lit "go") (Alt (lit "ok") (lit "okay")))))))))).

(** [start] after its third [await]: the reply has been captured or not. *)
Definition heard_reply (o : Capture) (intent : ParsedIntent) (raw : str)
           (w : World) : World :=
  match o with
  | CaptureError _ =>
      w |> setState confirming
        |> emit (Speak "I couldn't hear you. Tap yes or no on screen.")
  | Heard response =>
      if test affirm_re (trim response) then executeConfirm intent raw w
      else
        w |> emit (Speak "Okay, no problem. Cancelled.") |> reset
          |> emit Dismiss
  end.

(** Tap fallback. *)
Definition confirm (w : World) : World :=
  match pendingIntentRef w with
  | None => w
  | Some intent =>
      w |> emit CancelSpeech |> executeConfirm intent (transcriptRef w)
  end.

Definition cancel (w : World) : World :=
  w |> emit CancelSpeech |> emit (Speak "Okay, cancelled.") |> reset
    |> emit Dismiss.

(** *** Sessions

    One run of [start] with the outcomes of its two captures: the worlds
    at which the run is suspended, in order, and the world it ends in. *)

Record Script : Type := {
  command : Capture;
  reply : Capture
}.

Definition session (isSupported : bool) (sc : Script) (w : World)
  : list World :=
  let (w1, waiting) := start isSupported w in
  w1 ::
  if waiting then
    let (w2, k) := heard_command (command sc) w1 in
    w2 ::
    match k with
    | Some (intent, raw) =>
        let w3 := spoken w2 in
        [w3; heard_reply (reply sc) intent raw w3]
    | None => []
    end
  else [].

Definition outcome (isSupported : bool) (sc : Script) (w : World) : World :=
  last (session isSupported sc w) w.

(** *** The hook under arbitrary scheduling

    Nothing stops the user from tapping, or from starting again, while a
    run of [start] is suspended, and nothing aborts a suspended run: the
    machine below keeps every suspended run and every save under way,
    and lets any of them go on at any time. *)

Inductive Task : Type :=
| AwaitCommand
| AwaitReadback (intent : ParsedIntent) (raw : str)
| AwaitReply (intent : ParsedIntent) (raw : str).

Inductive Event : Type :=
| EvStart
| EvConfirm
| EvCancel
| EvCommand (n : nat) (o : Capture)
| EvSpoken (n : nat)
| EvReply (n : nat) (o : Capture)
| EvSaved (n : nat).

Record Config : Type := {
  world : World;
  tasks : list Task
}.

(** Task [n] goes on as [t], or is over. *)
Fixpoint settle (n : nat) (t : option Task) (ts : list Task) : list Task :=
  match ts, n with
  | [], _ => []
  | _ :: ts', 0 => match t with Some t' => t' :: ts' | None => ts' end
  | t0 :: ts', S n' => t0 :: settle n' t ts'
  end.

(** The rest of [persistContacts] for the [n]th save still under way:
    [encryptPlaintext] is over, and the list built when the save was
    called is written, or the rejection is swallowed by [catch]. *)
Definition endSave (n : nat) (w : World) : World :=
  match nth_error (saving w) n with
  | Some updated =>
      w |> setStore (persistContacts updated (store w))
        |> setSaving (firstn n (saving w) ++ skipn (S n) (saving w))
  | None => w
  end.

Definition step (isSupported : bool) (c : Config) (e : Event) : Config :=
  match e with
  | EvStart =>
      let (w, waiting) := start isSupported (world c) in
      {| world := w;
         tasks := tasks c ++ (if waiting then [AwaitCommand] else []) |}
  | EvConfirm => {| world := confirm (world c); tasks := tasks c |}
  | EvCancel => {| world := cancel (world c); tasks := tasks c |}
  | EvCommand n o =>
      match nth_error (tasks c) n with
      | Some AwaitCommand =>
          let (w, k) := heard_command o (world c) in
          {| world := w;
             tasks := settle n (option_map
                                  (fun ir => AwaitReadback (fst ir) (snd ir))
                                  k) (tasks c) |}
      | _ => c
      end
  | EvSpoken n =>
      match nth_error (tasks c) n with
      | Some (AwaitReadback i raw) =>
          {| world := spoken (world c);
             tasks := settle n (Some (AwaitReply i raw)) (tasks c) |}
      | _ => c
      end
  | EvReply n o =>
      match nth_error (tasks c) n with
      | Some (AwaitReply i raw) =>
          {| world := heard_reply o i raw (world c);
             tasks := settle n None (tasks c) |}
      | _ => c
      end
  | EvSaved n => {| world := endSave n (world c); tasks := tasks c |}
  end.

Definition mounted (st : Store) : Config :=
  {| world := {| state := idle; transcript := []; pendingIntent := None;
                 errorMessage := []; pendingIntentRef := None;
                 transcriptRef := []; store := st; saving := [];
                 effects := [] |};
     tasks := [] |}.

Definition exec (isSupported : bool) (st : Store) (es : list Event)
  : Config :=
  fold_left (step isSupported) es (mounted st).

(** ** Specifications

    What a successful match means, independently of the matcher's search
    order: [matches r w rest cs cs'] when [r] matches exactly [w], with
    [rest] following it, and turns the captures [cs] into [cs']. *)

Definition within (hi : option nat) (n : nat) : Prop :=
  match hi with
  | Some h => n <= h
  | None => True
  end.

Fixpoint matches (r : regex) (w rest : str) (cs cs' : captures) : Prop :=
  match r with
  | Eps => w = [] /\ cs' = cs
  | Cls c => exists x, w = [x] /\ c x = true /\ cs' = cs
  | Seq a b =>
      exists w1 w2 c1,
        w = w1 ++ w2 /\ matches a w1 (w2 ++ rest) cs c1 /\
        matches b w2 rest c1 cs'
  | Alt a b => matches a w rest cs cs' \/ matches b w rest cs cs'
  | Opt a => matches a w rest cs cs' \/ (w = [] /\ cs' = cs)
  | Many _ lo hi c =>
      forallb c w = true /\ lo <= length w /\ within hi (length w) /\ cs' = cs
  | Cap n a => exists c1, matches a w rest cs c1 /\ cs' = (n, w) :: c1
  | Eos => w = [] /\ rest = [] /\ cs' = cs
  end.

(** [s] begins with [p], letter case aside. *)
Fixpoint starts_with_ci (s p : str) {struct p} : bool :=
  match p, s with
  | [], _ => true
  | x :: p', y :: s' => ci_char x y && starts_with_ci s' p'
  | _ :: _, [] => false
  end.

(** One or more digits. *)
Definition digits (w : str) : Prop := w <> [] /\ forallb is_digit w = true.

(** What [AMOUNT_RE] captures. *)
Definition spoken_number (w : str) : Prop :=
  digits w \/
  exists d1 x d2, w = d1 ++ x :: d2 /\ digits d1 /\ comma_or_dot x = true /\
                  digits d2.

(** One or more digits, optionally followed by a decimal point and more
    digits: [/^\d+(?:\.\d+)?$/]. *)
Definition decimal_re : regex :=
  plus is_digit >> Opt (Cls (is_char ".") >> plus is_digit) >> Eos.

Definition is_decimal (w : str) : bool := test decimal_re w.

Definition has_comma (w : str) : bool := existsb (is_char ",") w.

(** The patterns under the groups numbered [n] in [r]. *)
Fixpoint captured (n : nat) (r : regex) : list regex :=
  match r with
  | Seq a b | Alt a b => captured n a ++ captured n b
  | Opt a => captured n a
  | Cap m a => (if m =? n then [a] else []) ++ captured n a
  | _ => []
  end.

(** Group [n] takes part in every match of [r]. *)
Fixpoint assigns (n : nat) (r : regex) : bool :=
  match r with
  | Seq a b => assigns n a || assigns n b
  | Alt a b => assigns n a && assigns n b
  | Cap m a => (m =? n) || assigns n a
  | _ => false
  end.

(** No code unit of [c] comes next. *)
Definition blocked (c : ascii -> bool) (rest : str) : Prop :=
  match rest with
  | [] => True
  | y :: _ => c y = false
  end.

(** The pattern inside the group of [AMOUNT_RE]. *)
Definition amount_body : regex :=
  plus is_digit >> Opt (Cls comma_or_dot >> plus is_digit).

(** A string with its white space removed and its ASCII letters folded:
    what is left of a transcript's keywords. *)
Definition squash (s : str) : str := strip is_space (map fold_case s).

(** The characters a dialled number is written with: digits, [+], space,
    [-], [(] and [)]. *)
Definition dial_char (c : ascii) : bool :=
  is_digit c || is_char "+" c || is_char " " c || is_char "-" c ||
  is_char "(" c || is_char ")" c.

(** Phone-shaped: 7 to 15 such characters. *)
Definition phone_shaped (t : str) : bool :=
  (7 <=? length t) && (length t <=? 15) && forallb dial_char t.

(** The same without any digit. *)
Definition punctuation (c : ascii) : bool :=
  is_char "+" c || is_char " " c || is_char "-" c || is_char "(" c ||
  is_char ")" c.

Definition punctuation_only (t : str) : bool :=
  (7 <=? length t) && (length t <=? 15) && forallb punctuation t.

(** The words that confirm. *)
Definition affirmatives : list str :=
  map list_ascii_of_string
      ["yes"; "yeah"; "yep"; "yup"; "confirm"; "send"; "do it"; "go"; "ok";
       "okay"]%string.

Definition affirmative (utterance : str) : bool :=
  existsb (starts_with_ci (trim utterance)) affirmatives.

(** The calls that carry a payment out: saving the contact it names and
    handing the intent over. *)
Definition executes (e : Effect) : bool :=
  match e with
  | SaveVoiceContact _ | Submit _ => true
  | _ => false
  end.

(** From [w] to [w'] the directory lists the same contacts and nothing
    was executed. *)
Definition quiet (w w' : World) : Prop :=
  contacts (store w') = contacts (store w) /\
  exists done,
    effects w' = effects w ++ done /\
    forallb (fun e => negb (executes e)) done = true.

Definition held (x : option ParsedIntent) : Prop :=
  match x with
  | Some i => concrete i = true
  | None => True
  end.

(** No named payment is pending or has been submitted. *)
Definition safe (w : World) : Prop :=
  held (pendingIntent w) /\ held (pendingIntentRef w) /\
  forall i, In (Submit i) (effects w) -> concrete i = true.

Definition task_safe (t : Task) : Prop :=
  match t with
  | AwaitCommand => True
  | AwaitReadback i _ | AwaitReply i _ => concrete i = true
  end.

Definition config_safe (c : Config) : Prop :=
  safe (world c) /\ Forall task_safe (tasks c).

(** The concrete variant a contact's type selects. *)
Definition variant_for (amount : str) (c : VoiceContact) (i : ParsedIntent)
  : Prop :=
  match type c with
  | Some till => i = TILL amount (phone c)
  | Some paybill =>
      exists account,
        accountNumber c = Some account /\
        i = PAYBILL amount (phone c) account
  | Some pochi => i = POCHI amount (phone c)
  | Some mobile | None => i = SEND_MONEY amount (phone c)
  end.

(** ** Sample data *)

Definition david : VoiceContact :=
  {| name := "David"; type := Some mobile; phone := "0712345678";
     accountNumber := None |}.

Definition david_till : VoiceContact :=
  {| name := "David"; type := Some till; phone := "522533";
     accountNumber := None |}.

Definition davidson : VoiceContact :=
  {| name := "Davidson"; type := Some mobile; phone := "0700000001";
     accountNumber := None |}.

Definition kplc : VoiceContact :=
  {| name := "KPLC"; type := Some paybill; phone := "888880";
     accountNumber := None |}.

Definition kplc_prepaid : VoiceContact :=
  {| name := "KPLC"; type := Some paybill; phone := "888880";
     accountNumber := Some ("1234" : str) |}.

Definition directory (cs : list VoiceContact) : Store :=
  {| cache := Some cs; sessionItem := None; encrypts := true |}.

(** A freshly mounted hook over a directory. *)
Definition fresh (cs : list VoiceContact) : World :=
  world (mounted (directory cs)).

Definition says (cmd answer : string) : Script :=
  {| command := Heard cmd; reply := Heard answer |}.

Definition unheard (cmd : string) : Script :=
  {| command := Heard cmd; reply := CaptureError None |}.

(** The world of a run at its third stop, [awaiting_confirmation] when it
    gets there. *)
Definition third (sc : Script) (w : World) : World :=
  nth 2 (session true sc w) w.

(** ** lib/voice-contacts.ts, the rest *)

Definition clearVoiceContacts (st : Store) : Store :=
  {| cache := Some []; sessionItem := None; encrypts := encrypts st |}.

(** What [JSON.parse] gives for a stored item that parses: [null], a
    list of contacts, or any other value.  [initVoiceContacts] and
    [persistContacts] take it for a list without looking. *)
Inductive Parsed : Type :=
| Null
| Listed (cs : list VoiceContact)
| Other.

(** The module state as [initVoiceContacts] finds it and leaves it:
    [_cache], [Null] when it is null; the item of [sessionStorage] under
    [SESSION_KEY], absent when missing or empty, and otherwise what it
    parses to, if it parses; and whether [encryptPlaintext] succeeds. *)
Record Storage : Type := {
  cached : Parsed;
  sessionParsed : option (option Parsed);
  sealing : bool
}.

(** What [localStorage] holds under [STORAGE_KEY] when [initVoiceContacts]
    reads it: nothing, or the empty string; an encrypted blob, with or
    without the passphrase beside it, and what becomes of it: the blob or
    [decryptPlaintext] throws, or the text it decrypts to parses or does
    not; or a plain item left by an older version, and what it parses to,
    if it parses. *)
Inductive LocalItem : Type :=
| NoItem
| EncryptedItem (passphrase : bool) (decrypted : option (option Parsed))
| PlainItem (legacy : option Parsed).

Definition setCached (v : Parsed) (s : Storage) : Storage :=
  {| cached := v; sessionParsed := sessionParsed s; sealing := sealing s |}.

(** Initialise contacts from encrypted localStorage. *)
Definition initVoiceContacts (local : LocalItem) (s : Storage) : Storage :=
  match cached s with
  | Null =>
      match sessionParsed s with
      | Some (Some v) => setCached v s
      | _ =>
          match local with
          | EncryptedItem true (Some (Some v)) =>
              {| cached := v; sessionParsed := Some (Some v);
                 sealing := sealing s |}
          | PlainItem (Some legacy) =>
              if sealing s
              then {| cached := legacy; sessionParsed := Some (Some legacy);
                      sealing := true |}
              else setCached (Listed []) s
          | _ => setCached (Listed []) s
          end
      end
  | _ => s
  end.

(** A store of contact lists, as a module state. *)
Definition stored (st : Store) : Storage :=
  {| cached := match cache st with Some cs => Listed cs | None => Null end;
     sessionParsed := option_map (fun cs => Some (Listed cs)) (sessionItem st);
     sealing := encrypts st |}.

Definition with_cache (cs : list VoiceContact) (st : Store) : Store :=
  {| cache := Some cs; sessionItem := sessionItem st;
     encrypts := encrypts st |}.

(** Names are keys, letter case aside. *)
Definition unique_names (cs : list VoiceContact) : Prop :=
  NoDup (map (fun c => toLowerCase (name c)) cs).

(** ** lib/fcm.ts: the access token cache *)

Record ServiceAccount : Type := {
  project_id : str;
  private_key : str;
  client_email : str;
  token_uri : option str
}.

Record TokenCache : Type := {
  clientEmail : str;
  token : str;
  expiresAt : N
}.

(** The claims of the JWT that asks for a token. *)
Record JwtClaims : Type := {
  iss : str;
  scope : str;
  aud : str;
  iat : N;
  exp : N
}.

(** What becomes of a request: the key is rejected by [importKey] or
    [sign], the token endpoint refuses, or it grants a token. *)
Inductive TokenReply : Type :=
| KeyRejected
| Refused (status : N) (text : str)
| Granted (access_token : str).

Inductive TokenResult : Type :=
| Token (t : str)
| CryptoError
| OAuth2TokenError (status : N) (text : str).

Definition token_claims (sa : ServiceAccount) (now : N) : JwtClaims :=
  let nowSec := (now / 1000)%N in
  {| iss := client_email sa;
     scope := "https://www.googleapis.com/auth/firebase.messaging";
     aud := match token_uri sa with
            | Some u => u
            | None => "https://oauth2.googleapis.com/token"
            end;
     iat := nowSec;
     exp := (nowSec + 3600)%N |}.

(** The cached token, when it is for this account and not yet expired. *)
Definition cached_token (sa : ServiceAccount) (now : N)
           (c : option TokenCache) : option str :=
  match c with
  | Some tc =>
      if str_eqb (clientEmail tc) (client_email sa) &&
         (now <? expiresAt tc)%N
      then Some (token tc) else None
  | None => None
  end.

(** [getAccessToken] at time [now] (milliseconds), with the reply its
    request gets if it makes one: the result, the cache afterwards and the
    claims it signed, if any. *)
Definition getAccessToken (sa : ServiceAccount) (now : N) (reply : TokenReply)
           (c : option TokenCache)
  : TokenResult * option TokenCache * option JwtClaims :=
  match cached_token sa now c with
  | Some t => (Token t, c, None)
  | None =>
      let claims := Some (token_claims sa now) in
      match reply with
      | KeyRejected => (CryptoError, c, claims)
      | Refused status text => (OAuth2TokenError status text, c, claims)
      | Granted t =>
          (Token t,
           Some {| clientEmail := client_email sa; token := t;
                   expiresAt := (now + 55 * 60 * 1000)%N |},
           claims)
      end
  end.

(** ** Specifications, continued *)

(** The five templates tried before the named payment. *)
Definition specific_templates : list regex :=
  [send_re; pochi_re; paybill_re; till_re; withdraw_re].

(** The first four characters of a transcript's keywords. *)
Definition keyword4 (s : str) : str := firstn 4 (squash s).

(** The numbers an intent names besides its amount. *)
Definition numbers_of (i : ParsedIntent) : list str :=
  match i with
  | PAYBILL _ business account => [business; account]
  | TILL _ t => [t]
  | WITHDRAW _ agent sto => [agent; sto]
  | _ => []
  end.

Definition name_char (c : ascii) : bool :=
  is_alpha c || is_digit c || is_space c.

Definition is_submit (e : Effect) : bool :=
  match e with Submit _ => true | _ => false end.

(** The intents handed to the submission callback, in order. *)
Definition submitted (es : list Effect) : list Effect := filter is_submit es.

(** The name [executeConfirm] reads at the end of a transcript. *)
Definition trailing_name (raw : str) : option str :=
  option_map (fun m => trim (grp 1 m)) (search name_re raw).

(** The contact [executeConfirm] saves for a name and a phone. *)
Definition learnt (n p : str) : VoiceContact :=
  {| name := n; type := None; phone := p; accountNumber := None |}.

(** The contact [executeConfirm] learns from an intent and its transcript,
    if any. *)
Definition learning (i : ParsedIntent) (raw : str)
  : option VoiceContact :=
  match trailing_name raw, has_phone i with
  | Some (x :: n), Some p => Some (learnt (x :: n) p)
  | _, _ => None
  end.

Definition phone_target (a p : str) (i : ParsedIntent) : Prop :=
  i = SEND_MONEY a p \/ i = POCHI a p.

Definition with_phone (i : ParsedIntent) (p : str) : ParsedIntent :=
  match i with
  | SEND_MONEY a _ => SEND_MONEY a p
  | POCHI a _ => POCHI a p
  | _ => i
  end.

(** Not beginning with white space. *)
Definition headed (s : str) : Prop :=
  match s with
  | [] => True
  | x :: _ => is_space x = false
  end.

(** One call of [getAccessToken]: the account, the time and the reply a
    request would get. *)
Record Call : Type := {
  account : ServiceAccount;
  at_time : N;
  answer : TokenReply
}.

Definition call_token (k : Call) (c : option TokenCache)
  : TokenResult * option TokenCache * option JwtClaims :=
  getAccessToken (account k) (at_time k) (answer k) c.

(** The results of a series of calls, and the cache they leave. *)
Fixpoint serve (calls : list Call) (c : option TokenCache)
  : list TokenResult :=
  match calls with
  | [] => []
  | k :: rest =>
      fst (fst (call_token k c)) :: serve rest (snd (fst (call_token k c)))
  end.

Fixpoint cache_after (calls : list Call) (c : option TokenCache)
  : option TokenCache :=
  match calls with
  | [] => c
  | k :: rest => cache_after rest (snd (fst (call_token k c)))
  end.

(** The cache holds a token some call of [calls] was granted. *)
Definition granted_by (calls : list Call) (c : option TokenCache) : Prop :=
  match c with
  | None => True
  | Some tc =>
      exists k,
        In k calls /\ answer k = Granted (token tc) /\
        client_email (account k) = clientEmail tc /\
        expiresAt tc = (at_time k + 55 * 60 * 1000)%N
  end.

(** A call that misses the cache and is granted a token. *)
Definition is_grant (k : Call) (c : option TokenCache) : bool :=
  match cached_token (account k) (at_time k) c, answer k with
  | None, Granted _ => true
  | _, _ => false
  end.

(** None of the calls, made in a row on the cache [c], is granted a
    token. *)
Definition ungranted (calls : list Call) (c : option TokenCache) : bool :=
  forallb (fun k => negb (is_grant k c)) calls.

(** An intent whose amount is a decimal number and whose numbers hold no
    comma. *)
Definition legible (i : ParsedIntent) : Prop :=
  is_decimal (amount i) = true /\
  Forall (fun n => has_comma n = false) (numbers_of i).

(** * Proofs *)

(** ** Code units *)

Lemma code_inj (a b : ascii) : code a = code b -> a = b.
Proof.
  unfold code; intros H.
  rewrite <- (ascii_nat_embedding a), <- (ascii_nat_embedding b).
  now rewrite H.
Qed.

Lemma is_char_eq (x c : ascii) : is_char x c = true <-> c = x.
Proof.
  unfold is_char; rewrite Nat.eqb_eq; split; [apply code_inj | now intros ->].
Qed.

Lemma str_eqb_eq (a b : str) : str_eqb a b = true <-> a = b.
Proof.
  revert b; induction a as [|x a IH]; intros [|y b]; simpl;
    try (split; [discriminate | discriminate]); [tauto|].
  rewrite andb_true_iff, Nat.eqb_eq, IH; split.
  - intros [H ->]; now rewrite (code_inj _ _ H).
  - now intros [= -> ->].
Qed.

Lemma firstn_consumed (w rest : str) :
  firstn (length (w ++ rest) - length rest) (w ++ rest) = w.
Proof.
  rewrite length_app, Nat.add_sub.
  rewrite firstn_app, Nat.sub_diag, firstn_all; simpl; apply app_nil_r.
Qed.

(** ** The matcher finds only matches *)

Lemma orelse_some {A} (a b : option A) (x : A) :
  orelse a b = Some x -> a = Some x \/ (a = None /\ b = Some x).
Proof. destruct a; simpl; auto. Qed.

Lemma many_unfold k cs g c s lo hi out :
  many k cs g c s lo hi = Some out ->
  (lo = 0 /\ k s cs = Some out) \/
  (exists x s', s = x :: s' /\ c x = true /\ below hi = true /\
                many k cs g c s' (pred lo) (dec hi) = Some out).
Proof.
  intros H.
  assert (Hor :
    (if lo =? 0 then k s cs else None) = Some out \/
    match s with
    | x :: s' =>
        if c x && below hi then many k cs g c s' (pred lo) (dec hi) else None
    | [] => None
    end = Some out).
  { destruct s, g; cbn [many] in H; apply orelse_some in H; tauto. }
  destruct Hor as [Hs | Hm].
  - left. destruct lo; [auto | discriminate].
  - right. destruct s as [|x s']; [discriminate|].
    destruct (c x) eqn:Hc, (below hi) eqn:Hb; try discriminate.
    exists x, s'; auto.
Qed.

Lemma many_sound k cs g c :
  forall s lo hi out,
    many k cs g c s lo hi = Some out ->
    exists w rest,
      s = w ++ rest /\ forallb c w = true /\ lo <= length w /\
      within hi (length w) /\ k rest cs = Some out.
Proof.
  induction s as [|x s IH]; intros lo hi out H;
    apply many_unfold in H as [[-> Hk] | (y & s' & Hs & Hc & Hb & Hm)];
    try discriminate.
  - exists [], []; repeat split; auto. destruct hi; simpl; lia.
  - exists [], (x :: s); repeat split; auto. destruct hi; simpl; lia.
  - injection Hs as <- <-.
    destruct (IH _ _ _ Hm) as (w & rest & -> & Hw & Hlo & Hhi & Hk).
    exists (x :: w), rest; simpl; rewrite Hc, Hw; repeat split; auto.
    + lia.
    + destruct hi as [[|h]|]; simpl in *; try discriminate; lia.
Qed.

Theorem run_sound (r : regex) :
  forall k s cs out,
    run r k s cs = Some out ->
    exists w rest cs',
      s = w ++ rest /\ matches r w rest cs cs' /\ k rest cs' = Some out.
Proof.
  induction r as [|c|a IHa b IHb|a IHa b IHb|a IHa|g lo hi c|n a IHa|];
    intros k s cs out H; simpl in H.
  - exists [], s, cs; simpl; auto.
  - destruct s as [|x s]; [discriminate|].
    destruct (c x) eqn:Hc; [|discriminate].
    exists [x], s, cs; simpl; repeat split; eauto.
  - destruct (IHa _ _ _ _ H) as (w1 & r1 & c1 & -> & Ha & H1).
    destruct (IHb _ _ _ _ H1) as (w2 & r2 & c2 & -> & Hb & H2).
    exists (w1 ++ w2), r2, c2; rewrite app_assoc; simpl.
    repeat split; auto. exists w1, w2, c1; auto.
  - apply orelse_some in H as [H | [_ H]].
    + destruct (IHa _ _ _ _ H) as (w & rest & c1 & -> & Hm & Hk).
      exists w, rest, c1; simpl; auto.
    + destruct (IHb _ _ _ _ H) as (w & rest & c1 & -> & Hm & Hk).
      exists w, rest, c1; simpl; auto.
  - apply orelse_some in H as [H | [_ H]].
    + destruct (IHa _ _ _ _ H) as (w & rest & c1 & -> & Hm & Hk).
      exists w, rest, c1; simpl; auto.
    + exists [], s, cs; simpl; auto.
  - destruct (many_sound _ _ _ _ _ _ _ _ H) as (w & rest & -> & ? & ? & ? & ?).
    exists w, rest, cs; simpl; repeat split; auto.
  - destruct (IHa _ _ _ _ H) as (w & rest & c1 & -> & Hm & Hk).
    rewrite firstn_consumed in Hk.
    exists w, rest, ((n, w) :: c1); simpl; repeat split; eauto.
  - destruct s; [|discriminate]. exists [], [], cs; simpl; auto.
Qed.

Lemma match_at_start_sound (r : regex) (s : str) (m : captures) :
  match_at_start r s = Some m -> exists w rest, s = w ++ rest /\ matches r w rest [] m.
Proof.
  intros H; destruct (run_sound _ _ _ _ _ H) as (w & rest & cs' & -> & Hm & [= ->]).
  eauto.
Qed.

(** ** The matcher finds a match when there is one *)

Lemma orelse_none {A} (a b : option A) :
  orelse a b = None -> a = None /\ b = None.
Proof. destruct a; simpl; [discriminate | auto]. Qed.

Lemma many_none k cs g c s lo hi :
  many k cs g c s lo hi = None ->
  (if lo =? 0 then k s cs else None) = None /\
  match s with
  | x :: s' =>
      if c x && below hi then many k cs g c s' (pred lo) (dec hi) else None
  | [] => None
  end = None.
Proof.
  intros H; destruct s, g; cbn [many] in H; apply orelse_none in H; tauto.
Qed.

Lemma many_complete k cs g c rest out :
  k rest cs = Some out ->
  forall w lo hi,
    forallb c w = true -> lo <= length w -> within hi (length w) ->
    many k cs g c (w ++ rest) lo hi <> None.
Proof.
  intros Hk; induction w as [|x w IH]; intros lo hi Hw Hlo Hhi H;
    apply many_none in H as [Hstop Hmore].
  - simpl in Hlo; assert (lo = 0) by lia; subst lo.
    simpl in Hstop; congruence.
  - simpl in Hw; apply andb_true_iff in Hw as [Hx Hw].
    assert (Hb : below hi = true)
      by (destruct hi as [[|h]|]; simpl in *; auto; lia).
    cbn [app] in Hmore; rewrite Hx, Hb in Hmore; cbn [andb] in Hmore.
    revert Hmore; apply IH; auto;
      [simpl in Hlo; lia | destruct hi; simpl in *; lia].
Qed.

Theorem run_complete (r : regex) :
  forall k w rest cs cs' out,
    matches r w rest cs cs' -> k rest cs' = Some out ->
    run r k (w ++ rest) cs <> None.
Proof.
  induction r as [|c|a IHa b IHb|a IHa b IHb|a IHa|g lo hi c|n a IHa|];
    intros k w rest cs cs' out H Hk; simpl in H.
  - destruct H as [-> ->]; simpl; congruence.
  - destruct H as (x & -> & Hx & ->); simpl; rewrite Hx; congruence.
  - destruct H as (w1 & w2 & c1 & -> & Ha & Hb).
    rewrite <- app_assoc; cbn [run].
    destruct (run b k (w2 ++ rest) c1) as [o|] eqn:E;
      [eapply IHa; eauto | exfalso; eapply IHb; eauto].
  - cbn [run]; destruct H as [H | H].
    + destruct (run a k (w ++ rest) cs) eqn:E; simpl; [discriminate|].
      exfalso; eapply IHa; eauto.
    + destruct (run a k (w ++ rest) cs) eqn:E; simpl; [discriminate|].
      eapply IHb; eauto.
  - cbn [run]; destruct (run a k (w ++ rest) cs) eqn:E; simpl; [discriminate|].
    destruct H as [H | [-> ->]]; [exfalso; eapply IHa; eauto|].
    simpl; congruence.
  - destruct H as (Hw & Hlo & Hhi & ->); cbn [run].
    eapply many_complete; eauto.
  - destruct H as (c1 & Ha & ->); cbn [run].
    eapply IHa; [exact Ha|]; cbn beta.
    rewrite firstn_consumed; exact Hk.
  - destruct H as (-> & -> & ->); simpl; congruence.
Qed.

(** [test] decides whether some prefix of the string matches. *)
Corollary test_iff_matches (r : regex) (s : str) :
  test r s = true <->
  exists w rest m, s = w ++ rest /\ matches r w rest [] m.
Proof.
  unfold test; split.
  - destruct (match_at_start r s) as [m|] eqn:E; [intros _ | discriminate].
    destruct (match_at_start_sound _ _ _ E) as (w & rest & -> & Hm); eauto.
  - intros (w & rest & m & -> & Hm).
    destruct (match_at_start r (w ++ rest)) eqn:E; auto.
    exfalso; eapply (run_complete r accept); eauto; reflexivity.
Qed.

(** ** What the groups hold *)

Lemma matches_keeps (n : nat) (r : regex) :
  forall w rest cs cs',
    matches r w rest cs cs' -> group n cs <> None -> group n cs' <> None.
Proof.
  induction r as [|c|a IHa b IHb|a IHa b IHb|a IHa|g lo hi c|m a IHa|];
    simpl; intros w rest cs cs' H Hn.
  - now destruct H as [_ ->].
  - now destruct H as (? & _ & _ & ->).
  - destruct H as (w1 & w2 & c1 & _ & Ha & Hb); eauto.
  - destruct H; eauto.
  - destruct H as [|[_ ->]]; eauto.
  - now destruct H as (_ & _ & _ & ->).
  - destruct H as (c1 & Ha & ->); simpl.
    destruct (m =? n); [discriminate | eauto].
  - now destruct H as (_ & _ & ->).
Qed.

Lemma matches_assigns (n : nat) (r : regex) :
  assigns n r = true ->
  forall w rest cs cs', matches r w rest cs cs' -> group n cs' <> None.
Proof.
  induction r as [|c|a IHa b IHb|a IHa b IHb|a IHa|g lo hi c|m a IHa|];
    simpl; intros Ha' w rest cs cs' H; try discriminate.
  - destruct H as (w1 & w2 & c1 & _ & Ha & Hb).
    apply orb_true_iff in Ha' as [Hl | Hr]; [|eauto].
    eapply matches_keeps; eauto.
  - apply andb_true_iff in Ha' as [? ?]; destruct H; eauto.
  - destruct H as (c1 & Ha & ->); simpl.
    destruct (m =? n); [discriminate | eauto].
Qed.

Lemma matches_group (n : nat) (r : regex) :
  forall w rest cs cs',
    matches r w rest cs cs' ->
    group n cs' = group n cs \/
    exists a w0 r0 c0 c1,
      In a (captured n r) /\ matches a w0 r0 c0 c1 /\ group n cs' = Some w0.
Proof.
  induction r as [|c|a IHa b IHb|a IHa b IHb|a IHa|g lo hi c|m a IHa|];
    simpl; intros w rest cs cs' H.
  - destruct H as [_ ->]; auto.
  - destruct H as (? & _ & _ & ->); auto.
  - destruct H as (w1 & w2 & c1 & _ & Ha & Hb).
    destruct (IHb _ _ _ _ Hb) as [E | (x & w0 & r0 & c0 & c2 & Hin & Hm & E)].
    + rewrite E.
      destruct (IHa _ _ _ _ Ha) as [E' | (x & w0 & r0 & c0 & c2 & Hin & Hm & E')];
        [auto | right].
      exists x, w0, r0, c0, c2; rewrite in_app_iff; auto.
    + right; exists x, w0, r0, c0, c2; rewrite in_app_iff; auto.
  - destruct H as [H | H].
    + destruct (IHa _ _ _ _ H) as [E | (x & w0 & r0 & c0 & c2 & Hin & Hm & E)];
        [auto | right].
      exists x, w0, r0, c0, c2; rewrite in_app_iff; auto.
    + destruct (IHb _ _ _ _ H) as [E | (x & w0 & r0 & c0 & c2 & Hin & Hm & E)];
        [auto | right].
      exists x, w0, r0, c0, c2; rewrite in_app_iff; auto.
  - destruct H as [H | [_ ->]]; eauto.
  - destruct H as (_ & _ & _ & ->); auto.
  - destruct H as (c1 & Ha & ->); simpl.
    destruct (m =? n) eqn:E.
    + right; exists a, w, rest, cs, c1; simpl; auto.
    + simpl.
      destruct (IHa _ _ _ _ Ha) as [E' | (x & w0 & r0 & c0 & c2 & Hin & Hm & E')];
        [auto | right].
      exists x, w0, r0, c0, c2; auto.
  - destruct H as (_ & _ & ->); auto.
Qed.

(** A successful match leaves in a group that always takes part a string
    matched by a pattern of that group. *)
Lemma group_of_match (n : nat) (r : regex) (s : str) (m : captures) :
  assigns n r = true ->
  match_at_start r s = Some m ->
  exists a w0 r0 c0 c1,
    In a (captured n r) /\ matches a w0 r0 c0 c1 /\ grp n m = w0.
Proof.
  intros Ha H.
  destruct (match_at_start_sound _ _ _ H) as (w & rest & -> & Hm).
  pose proof (matches_assigns _ _ Ha _ _ _ _ Hm) as Hdef.
  destruct (matches_group n _ _ _ _ _ Hm)
    as [E | (a & w0 & r0 & c0 & c1 & Hin & Hma & E)].
  - now rewrite E in Hdef.
  - exists a, w0, r0, c0, c1; unfold grp; rewrite E; auto.
Qed.

(** ** Greedy repetition takes all it can *)

Lemma many_greedy_all k cs c rest out :
  blocked c rest ->
  k rest cs = Some out ->
  forall w lo hi,
    forallb c w = true -> lo <= length w -> within hi (length w) ->
    many k cs true c (w ++ rest) lo hi = Some out.
Proof.
  intros Hb Hk; induction w as [|x w IH]; intros lo hi Hw Hlo Hhi.
  - simpl in Hlo; assert (lo = 0) as -> by lia.
    destruct rest as [|y rest]; simpl in *; [now rewrite Hk|].
    now rewrite Hb.
  - simpl in Hw; apply andb_true_iff in Hw as [Hx Hw].
    cbn [many app]; rewrite Hx.
    assert (below hi = true) as -> by (destruct hi as [[|h]|]; simpl in *; auto; lia).
    simpl; rewrite IH; auto.
    + simpl in Hlo; lia.
    + destruct hi as [h|]; simpl in *; lia.
Qed.

(** ** Amounts *)

Lemma digit_not_comma (c : ascii) : is_digit c = true -> is_char "," c = false.
Proof.
  unfold is_digit, in_range, is_char; change (code ",") with 44.
  rewrite andb_true_iff, Nat.leb_le, Nat.leb_le, Nat.eqb_neq; lia.
Qed.

Lemma strip_comma_digits (w : str) :
  forallb is_digit w = true -> normalizeAmount w = w.
Proof.
  unfold normalizeAmount, strip; induction w as [|x w IH]; simpl; auto.
  rewrite andb_true_iff; intros [Hx Hw].
  now rewrite (digit_not_comma _ Hx), IH.
Qed.

Lemma normalizeAmount_app (a b : str) :
  normalizeAmount (a ++ b) = normalizeAmount a ++ normalizeAmount b.
Proof. apply filter_app. Qed.


Lemma digits_app (a b : str) : digits a -> digits b -> digits (a ++ b).
Proof.
  intros [Ha Hfa] [Hb Hfb]; split.
  - destruct a; [congruence | discriminate].
  - now rewrite forallb_app, Hfa, Hfb.
Qed.

Lemma digits_length (w : str) : digits w -> 1 <= length w.
Proof. intros [H _]; destruct w; [congruence | simpl; lia]. Qed.

Lemma digits_intro (w : str) :
  forallb is_digit w = true -> 1 <= length w -> digits w.
Proof. intros H L; split; auto. destruct w; simpl in L; [lia | discriminate]. Qed.

Lemma amount_body_matches w rest cs cs' :
  matches amount_body w rest cs cs' -> spoken_number w.
Proof.
  intros (w1 & w2 & c1 & -> & (Hd1 & Hl1 & _) & Hopt).
  pose proof (digits_intro _ Hd1 Hl1) as D1.
  destruct Hopt
    as [(w3 & w4 & c2 & -> & (x & -> & Hx & _) & (Hd2 & Hl2 & _)) | [-> _]].
  - pose proof (digits_intro _ Hd2 Hl2) as D2.
    right; exists w1, x, w4; auto.
  - rewrite app_nil_r; now left.
Qed.

Lemma template_amount (n : nat) (r : regex) (t : str) (m : captures) :
  assigns n r = true ->
  captured n r = [amount_body] ->
  match_at_start r t = Some m ->
  spoken_number (grp n m).
Proof.
  intros Ha Hc H.
  destruct (group_of_match _ _ _ _ Ha H) as (a & w0 & r0 & c0 & c1 & Hin & Hm & ->).
  rewrite Hc in Hin; destruct Hin as [<- | []].
  eapply amount_body_matches; eauto.
Qed.

Lemma run_plus_all c k cs (w rest : str) out :
  forallb c w = true -> 1 <= length w -> blocked c rest ->
  k rest cs = Some out ->
  run (plus c) k (w ++ rest) cs = Some out.
Proof.
  intros Hw Hl Hb Hk; simpl; apply many_greedy_all; simpl; auto.
Qed.

Lemma is_decimal_digits (w : str) : digits w -> is_decimal w = true.
Proof.
  intros D; unfold is_decimal, test, match_at_start, decimal_re.
  rewrite <- (app_nil_r w); cbn [run].
  erewrite (run_plus_all is_digit _ [] w [] []); simpl; auto.
  - apply D.
  - now apply digits_length.
Qed.

Lemma is_decimal_point (d1 d2 : str) :
  digits d1 -> digits d2 -> is_decimal (d1 ++ "."%char :: d2) = true.
Proof.
  intros D1 D2; unfold is_decimal, test, match_at_start, decimal_re.
  cbn [run].
  erewrite (run_plus_all is_digit _ [] d1 ("."%char :: d2) []);
    simpl; auto.
  - apply D1.
  - now apply digits_length.
  - change (is_char "." ".") with true; cbv iota.
    rewrite <- (app_nil_r d2).
    rewrite many_greedy_all with (out := []); simpl; auto.
    + apply D2.
    + now apply digits_length.
Qed.

Lemma normalized_decimal (w : str) :
  spoken_number w -> is_decimal (normalizeAmount w) = true.
Proof.
  intros [D | (d1 & x & d2 & -> & D1 & Hx & D2)].
  - rewrite strip_comma_digits; [now apply is_decimal_digits | apply D].
  - change (d1 ++ x :: d2) with (d1 ++ [x] ++ d2).
    rewrite !normalizeAmount_app.
    rewrite (strip_comma_digits d1) by apply D1.
    rewrite (strip_comma_digits d2) by apply D2.
    unfold comma_or_dot in Hx; apply orb_true_iff in Hx as [Hx | Hx];
      apply is_char_eq in Hx as ->.
    + simpl; apply is_decimal_digits, digits_app; auto.
    + simpl; now apply is_decimal_point.
Qed.

Lemma parseIntent_amount (t : str) (i : ParsedIntent) :
  parseIntent t = Some i ->
  exists w, spoken_number w /\ amount i = normalizeAmount w.
Proof.
  unfold parseIntent; intros H.
  destruct (match_at_start send_re (trim t)) as [m|] eqn:E1.
  { injection H as <-; exists (grp 1 m); split; auto.
    eapply (template_amount 1); eauto; reflexivity. }
  destruct (match_at_start pochi_re (trim t)) as [m|] eqn:E2.
  { injection H as <-; exists (grp 1 m); split; auto.
    eapply (template_amount 1); eauto; reflexivity. }
  destruct (match_at_start paybill_re (trim t)) as [m|] eqn:E3.
  { injection H as <-; exists (grp 3 m); split; auto.
    eapply (template_amount 3); eauto; reflexivity. }
  destruct (match_at_start till_re (trim t)) as [m|] eqn:E4.
  { injection H as <-; exists (grp 2 m); split; auto.
    eapply (template_amount 2); eauto; reflexivity. }
  destruct (match_at_start withdraw_re (trim t)) as [m|] eqn:E5.
  { injection H as <-; exists (grp 1 m); split; auto.
    eapply (template_amount 1); eauto; reflexivity. }
  destruct (match_at_start named_re (trim t)) as [m|] eqn:E6; [|discriminate].
  injection H as <-; exists (grp 2 m); split; auto.
  eapply (template_amount 2); eauto; reflexivity.
Qed.


(** ** Template precedence *)

Lemma squash_app (a b : str) : squash (a ++ b) = squash a ++ squash b.
Proof. unfold squash, strip; now rewrite map_app, filter_app. Qed.

Lemma fold_case_space (c : ascii) : is_space c = true -> fold_case c = c.
Proof.
  unfold fold_case, is_space, is_upper, in_range; intros H.
  destruct ((65 <=? code c) && (code c <=? 90)) eqn:E; auto.
  apply andb_true_iff in E as [E1 E2]; apply Nat.leb_le in E1, E2.
  repeat (apply orb_true_iff in H as [H | H]).
  - apply andb_true_iff in H as [_ H]; apply Nat.leb_le in H; lia.
  - apply Nat.eqb_eq in H; lia.
  - apply Nat.eqb_eq in H; lia.
Qed.

Lemma squash_spaces (w : str) : forallb is_space w = true -> squash w = [].
Proof.
  unfold squash, strip; induction w as [|x w IH]; simpl; auto.
  rewrite andb_true_iff; intros [Hx Hw].
  now rewrite (fold_case_space _ Hx), Hx, IH.
Qed.

Lemma matches_lit (p : str) :
  forall w rest cs cs',
    matches (lit p) w rest cs cs' -> map fold_case w = map fold_case p.
Proof.
  induction p as [|x p IH]; simpl; intros w rest cs cs' H.
  - now destruct H as [-> _].
  - destruct H as (w1 & w2 & c1 & -> & (y & -> & Hy & _) & Hp).
    simpl; unfold ci_char in Hy; apply Nat.eqb_eq, code_inj in Hy.
    rewrite Hy; f_equal; eauto.
Qed.

Lemma squash_lit (p w rest : str) cs cs' :
  matches (lit p) w rest cs cs' -> squash w = squash p.
Proof. intros H; unfold squash; now rewrite (matches_lit _ _ _ _ _ H). Qed.

Lemma squash_plus w rest cs cs' :
  matches (plus is_space) w rest cs cs' -> squash w = [].
Proof. intros (H & _); now apply squash_spaces. Qed.

Lemma squash_star w rest cs cs' :
  matches (star is_space) w rest cs cs' -> squash w = [].
Proof. intros (H & _); now apply squash_spaces. Qed.

(** The keywords each template begins with. *)
Lemma send_keyword w rest cs cs' :
  matches send_re w rest cs cs' -> exists tl, squash w = "send" ++ tl.
Proof.
  unfold send_re; cbn [matches].
  intros (w1 & w2 & c1 & -> & H1 & _).
  rewrite squash_app, (squash_lit _ _ _ _ _ H1); eauto.
Qed.

Lemma pochi_keyword w rest cs cs' :
  matches pochi_re w rest cs cs' -> exists tl, squash w = "pochi" ++ tl.
Proof.
  unfold pochi_re; cbn [matches].
  intros (w1 & w2 & c1 & -> & H1 & _).
  rewrite squash_app, (squash_lit _ _ _ _ _ H1); eauto.
Qed.

Lemma paybill_keyword w rest cs cs' :
  matches paybill_re w rest cs cs' -> exists tl, squash w = "paybill" ++ tl.
Proof.
  unfold paybill_re; cbn [matches].
  intros (w1 & w2 & c1 & -> & H1 & w3 & w4 & c2 & -> & H2 &
          w5 & w6 & c3 & -> & H3 & _).
  rewrite !squash_app, (squash_lit _ _ _ _ _ H1), (squash_star _ _ _ _ H2),
    (squash_lit _ _ _ _ _ H3).
  eexists; reflexivity.
Qed.

Lemma till_keyword w rest cs cs' :
  matches till_re w rest cs cs' ->
  exists tl, squash w = "paytill" ++ tl \/ squash w = "buygoods" ++ tl.
Proof.
  unfold till_re; cbn [matches].
  intros (w1 & w2 & c1 & -> &
          [(a1 & a2 & c2 & -> & H1 & a3 & a4 & c3 & -> & H2 & H3) |
           (a1 & a2 & c2 & -> & H1 & a3 & a4 & c3 & -> & H2 & H3)] & _);
    rewrite !squash_app, (squash_lit _ _ _ _ _ H1), (squash_plus _ _ _ _ H2),
      (squash_lit _ _ _ _ _ H3);
    eexists; first [left; reflexivity | right; reflexivity].
Qed.

Lemma till_excludes_earlier (s : str) (m : captures) :
  match_at_start till_re s = Some m ->
  match_at_start send_re s = None /\ match_at_start pochi_re s = None /\
  match_at_start paybill_re s = None.
Proof.
  intros H; destruct (match_at_start_sound _ _ _ H) as (w & rest & -> & Hm).
  destruct (till_keyword _ _ _ _ Hm) as (tl & Htl).
  assert (Hsq : exists tl', squash (w ++ rest) = "paytill" ++ tl' \/
                            squash (w ++ rest) = "buygoods" ++ tl').
  { exists (tl ++ squash rest); rewrite squash_app.
    destruct Htl as [-> | ->]; [left | right]; now rewrite <- app_assoc. }
  clear Htl Hm H; destruct Hsq as (tl' & Hsq).
  repeat split.
  - destruct (match_at_start send_re (w ++ rest)) as [m'|] eqn:E; auto.
    destruct (match_at_start_sound _ _ _ E) as (w' & rest' & Es & Hm').
    destruct (send_keyword _ _ _ _ Hm') as (t2 & H2).
    rewrite Es, squash_app, H2 in Hsq; destruct Hsq; discriminate.
  - destruct (match_at_start pochi_re (w ++ rest)) as [m'|] eqn:E; auto.
    destruct (match_at_start_sound _ _ _ E) as (w' & rest' & Es & Hm').
    destruct (pochi_keyword _ _ _ _ Hm') as (t2 & H2).
    rewrite Es, squash_app, H2 in Hsq; destruct Hsq; discriminate.
  - destruct (match_at_start paybill_re (w ++ rest)) as [m'|] eqn:E; auto.
    destruct (match_at_start_sound _ _ _ E) as (w' & rest' & Es & Hm').
    destruct (paybill_keyword _ _ _ _ Hm') as (t2 & H2).
    rewrite Es, squash_app, H2 in Hsq; destruct Hsq; discriminate.
Qed.

(** C3: "pay till 522533 500" parses as TILL with amount "500" and till
    "522533", although the named-payment template matches it too; and
    every transcript that matches the TILL template is parsed as TILL, from
    that match, so never as NAMED_PAYMENT. *)
Theorem till_template_precedence :
  parseIntent "pay till 522533 500" = Some (TILL "500" "522533") /\
  is_some (match_at_start named_re "pay till 522533 500") = true /\
  (forall (transcript : str) (m : captures),
      match_at_start till_re (trim transcript) = Some m ->
      parseIntent transcript =
        Some (TILL (normalizeAmount (grp 2 m)) (grp 1 m)) /\
      forall a n, parseIntent transcript <> Some (NAMED_PAYMENT a n)).
Proof.
  split; [vm_compute; reflexivity|]; split; [vm_compute; reflexivity|].
  intros t m H.
  destruct (till_excludes_earlier _ _ H) as (E1 & E2 & E3).
  assert (P : parseIntent t = Some (TILL (normalizeAmount (grp 2 m)) (grp 1 m))).
  { unfold parseIntent; now rewrite E1, E2, E3, H. }
  split; [exact P | intros a n; rewrite P; discriminate].
Qed.

(** ** Phone numbers *)

Lemma isPhoneNumber_spec (s : str) :
  isPhoneNumber s = true <->
  7 <= length s <= 15 /\ forallb phone_class s = true.
Proof.
  unfold isPhoneNumber, test; split.
  - destruct (match_at_start phone_re s) as [m|] eqn:E; [intros _ | discriminate].
    destruct (match_at_start_sound _ _ _ E) as (w & rest & -> & Hm).
    destruct Hm as (w1 & w2 & c1 & -> & (Hc & Hlo & Hhi & _) & (-> & -> & _)).
    simpl in Hhi; rewrite !app_nil_r; auto.
  - intros [[Hlo Hhi] Hc].
    unfold match_at_start, phone_re; cbn [run].
    rewrite <- (app_nil_r s).
    now rewrite (many_greedy_all (run Eos accept) [] phone_class [] []).
Qed.

Lemma dial_char_phone_class (c : ascii) :
  dial_char c = true -> phone_class c = true.
Proof.
  unfold dial_char, phone_class; intros H.
  repeat (apply orb_true_iff in H as [H | H]); rewrite ?H, ?orb_true_r; auto.
  apply is_char_eq in H as ->; reflexivity.
Qed.

Lemma punctuation_dial_char (c : ascii) :
  punctuation c = true -> dial_char c = true.
Proof.
  unfold punctuation, dial_char; intros H.
  repeat (apply orb_true_iff in H as [H | H]); rewrite ?H, ?orb_true_r; auto.
Qed.

Lemma forallb_impl {A} (p q : A -> bool) (l : list A) :
  (forall x, p x = true -> q x = true) ->
  forallb p l = true -> forallb q l = true.
Proof.
  intros Hpq; induction l as [|x l IH]; simpl; auto.
  rewrite !andb_true_iff; intros [? ?]; auto.
Qed.

Lemma phone_shaped_isPhoneNumber (t : str) :
  phone_shaped t = true -> isPhoneNumber t = true.
Proof.
  unfold phone_shaped; rewrite !andb_true_iff, !Nat.leb_le.
  intros [[Hlo Hhi] Hc]; apply isPhoneNumber_spec; split; auto.
  eapply forallb_impl; [apply dial_char_phone_class | exact Hc].
Qed.

Lemma strip_clean (cls : ascii -> bool) (s : str) :
  forallb (fun c => negb (cls c)) (strip cls s) = true.
Proof.
  unfold strip; induction s as [|x s IH]; simpl; auto.
  destruct (cls x) eqn:E; simpl; auto. now rewrite E.
Qed.

Lemma normalizePhone_clean (p : str) :
  forallb (fun c => negb (separator c)) (normalizePhone p) = true.
Proof.
  unfold normalizePhone.
  pose proof (strip_clean separator p) as H.
  destruct (startsWith (strip separator p) "+254"); auto.
  destruct (strip separator p) as [|a [|b [|c [|d r]]]]; simpl in *; auto.
  repeat (apply andb_true_iff in H as [_ H]); auto.
Qed.


Lemma strip_punctuation (t : str) :
  forallb punctuation t = true ->
  forallb (is_char "+") (strip separator t) = true.
Proof.
  unfold strip; induction t as [|x t IH]; simpl; auto.
  rewrite andb_true_iff; intros [Hx Ht].
  destruct (separator x) eqn:E; simpl; auto.
  rewrite IH by auto; rewrite andb_true_r.
  unfold punctuation in Hx; unfold separator in E.
  repeat (apply orb_true_iff in Hx as [Hx | Hx]); auto;
    apply is_char_eq in Hx as ->; discriminate.
Qed.

Lemma plus_signs_not_kenya (p : str) :
  forallb (is_char "+") p = true -> startsWith p "+254" = false.
Proof.
  destruct p as [|a [|b r]]; simpl; auto.
  - now rewrite andb_false_r.
  - rewrite !andb_true_iff; intros (_ & Hb & _).
    apply is_char_eq in Hb as ->; simpl; now rewrite andb_false_r.
Qed.

(** C10: the phone-shape test asks for no digit.  A query that, trimmed,
    is 7 to 15 characters among [+], space, [-], [(] and [)] is taken for
    a number: [resolvePhoneOrName] returns what is left of it once the
    separators are stripped, without a name lookup; for "-------" that is
    the empty string. *)
Theorem digitless_query_is_a_phone :
  (forall (st : Store) (query : str),
      punctuation_only (trim query) = true ->
      forallb (fun c => negb (is_digit c)) (trim query) = true /\
      resolvePhoneOrName query st =
        (Some (strip separator (trim query)), st)) /\
  (forall st, resolvePhoneOrName "-------" st = (Some [], st)) /\
  (forall st, resolvePhoneOrName "+ ( ) - +" st = (Some ("++" : str), st)).
Proof.
  split; [|split; intros st; reflexivity].
  intros st q H.
  assert (Hp : phone_shaped (trim q) = true).
  { unfold punctuation_only in H; unfold phone_shaped.
    apply andb_true_iff in H as [-> H]; simpl.
    eapply forallb_impl; [apply punctuation_dial_char | exact H]. }
  apply andb_true_iff in H as [_ H]; split.
  - eapply forallb_impl; [|exact H].
    intros c Hc; unfold punctuation in Hc.
    repeat (apply orb_true_iff in Hc as [Hc | Hc]);
      apply is_char_eq in Hc as ->; reflexivity.
  - unfold resolvePhoneOrName; rewrite (phone_shaped_isPhoneNumber _ Hp).
    unfold normalizePhone; rewrite plus_signs_not_kenya; auto.
    now apply strip_punctuation.
Qed.

(** ** The confirmation pattern *)

Lemma run_lit (p : str) :
  forall k s cs,
    run (lit p) k s cs =
    if starts_with_ci s p then k (skipn (length p) s) cs else None.
Proof.
  induction p as [|x p IH]; intros k s cs; simpl; auto.
  destruct s as [|y s]; auto.
  destruct (ci_char x y); simpl; auto.
Qed.

Lemma affirm_re_affirmative (utterance : str) :
  test affirm_re (trim utterance) = affirmative utterance.
Proof.
  unfold affirmative, test, match_at_start, affirm_re, affirmatives.
  generalize (trim utterance) as t; intros t.
  cbn [run map existsb]; rewrite !run_lit.
  repeat match goal with
         | |- context [starts_with_ci t ?p] => destruct (starts_with_ci t p)
         end; reflexivity.
Qed.

(** ** The hook *)

Lemma quiet_trans (a b c : World) : quiet a b -> quiet b c -> quiet a c.
Proof.
  intros [S1 (d1 & E1 & F1)] [S2 (d2 & E2 & F2)]; split; [congruence|].
  exists (d1 ++ d2); rewrite E2, E1, app_assoc, forallb_app, F1, F2; auto.
Qed.

Lemma quiet_step (w w' : World) (done : list Effect) :
  contacts (store w') = contacts (store w) ->
  effects w' = effects w ++ done ->
  forallb (fun e => negb (executes e)) done = true ->
  quiet w w'.
Proof. intros; split; eauto. Qed.

Lemma getVoiceContacts_contacts (st : Store) :
  contacts (snd (getVoiceContacts st)) = contacts st.
Proof.
  unfold contacts, getVoiceContacts.
  destruct (cache st) eqn:C; simpl; [now rewrite C|].
  destruct (sessionItem st) eqn:S; simpl; [reflexivity | now rewrite C, S].
Qed.

Lemma resolvePhoneOrName_contacts (q : str) (st : Store) :
  contacts (snd (resolvePhoneOrName q st)) = contacts st.
Proof.
  unfold resolvePhoneOrName.
  destruct (isPhoneNumber (trim q)); simpl; auto.
  pose proof (getVoiceContacts_contacts st) as H.
  destruct (getVoiceContacts st); simpl in *; auto.
Qed.

Lemma resolveContact_contacts (q : str) (st : Store) :
  contacts (snd (resolveContact q st)) = contacts st.
Proof.
  unfold resolveContact.
  pose proof (getVoiceContacts_contacts st) as H.
  destruct (getVoiceContacts st); simpl in *; auto.
Qed.

Lemma resolve_phone_inv (p : str) (w w1 : World) (r : option str) :
  resolve_phone p w = (r, w1) ->
  exists st, w1 = setStore st w /\ contacts st = contacts (store w).
Proof.
  unfold resolve_phone; intros H.
  pose proof (resolvePhoneOrName_contacts p (store w)) as Hc.
  destruct (resolvePhoneOrName p (store w)) as [res st]; simpl in Hc.
  exists st; split; auto.
  destruct (truthy res); [congruence|].
  destruct (negb _); congruence.
Qed.

Lemma rewrite_named_concrete a n c i :
  rewrite_named a n c = inl i -> concrete i = true.
Proof.
  unfold rewrite_named; destruct c as [c|]; [|discriminate].
  destruct (type c) as [[]|]; try destruct (truthy (accountNumber c));
    intros [= <-]; reflexivity.
Qed.

Lemma rewrite_named_variant a n c i :
  rewrite_named a n c = inl i ->
  exists contact, c = Some contact /\ variant_for a contact i.
Proof.
  unfold rewrite_named, variant_for; destruct c as [c|]; [|discriminate].
  intros H; exists c; split; auto.
  destruct (type c) as [[]|]; try (injection H as <-; reflexivity).
  destruct (accountNumber c) as [[|x acc]|]; simpl in H; try discriminate.
  injection H as <-; eauto.
Qed.

(** What [start] has done when the command has been dealt with: it is
    over, in [error], or it holds a concrete intent and reads it back. *)
Lemma heard_command_inv (o : Capture) (w w' : World)
      (k : option (ParsedIntent * str)) :
  heard_command o w = (w', k) ->
  quiet w w' /\
  match k with
  | None =>
      state w' = error /\ pendingIntent w' = pendingIntent w /\
      pendingIntentRef w' = pendingIntentRef w
  | Some (i, raw) =>
      o = Heard raw /\ concrete i = true /\ state w' = confirming /\
      pendingIntent w' = Some i /\ pendingIntentRef w' = Some i /\
      transcriptRef w' = raw /\
      exists before, effects w' = before ++ [Speak (readback_prompt i)]
  end.
Proof.
  unfold heard_command; intros H.
  destruct o as [raw | msg].
  2:{ injection H as <- <-; split; [|simpl; auto].
      eapply quiet_step; simpl; eauto. }
  destruct (parseIntent raw) as [[a p|a p|a b acc|a t|a ag sto|a n]|].
  - destruct (resolve_phone p _) as [[p'|] w1] eqn:E;
      destruct (resolve_phone_inv _ _ _ _ E) as (st & -> & Hst);
      injection H as <- <-; (split; [eapply quiet_step; simpl; eauto|]);
      simpl; repeat split; eauto.
  - destruct (resolve_phone p _) as [[p'|] w1] eqn:E;
      destruct (resolve_phone_inv _ _ _ _ E) as (st & -> & Hst);
      injection H as <- <-; (split; [eapply quiet_step; simpl; eauto|]);
      simpl; repeat split; eauto.
  - injection H as <- <-; (split; [eapply quiet_step; simpl; eauto|]);
      simpl; repeat split; eauto.
  - injection H as <- <-; (split; [eapply quiet_step; simpl; eauto|]);
      simpl; repeat split; eauto.
  - injection H as <- <-; (split; [eapply quiet_step; simpl; eauto|]);
      simpl; repeat split; eauto.
  - pose proof (resolveContact_contacts n
                  (store (setState processing
                            (setTranscriptRef raw (setTranscript raw w)))))
      as Hc.
    destruct (resolveContact n _) as [c st]; simpl in Hc.
    destruct (rewrite_named a n c) as [i | msg] eqn:R;
      injection H as <- <-; (split; [eapply quiet_step; simpl; eauto|]);
      simpl; repeat split; eauto.
    eapply rewrite_named_concrete; eauto.
  - injection H as <- <-; (split; [eapply quiet_step; simpl; eauto|]);
      simpl; repeat split; eauto.
Qed.

(** [executeConfirm] ends by handing the intent over, after at most one
    contact save; it leaves the hook idle with nothing pending. *)
Lemma executeConfirm_inv (i : ParsedIntent) (raw : str) (w : World) :
  exists saved,
    effects (executeConfirm i raw w) =
      effects w ++ saved ++
      [CancelSpeech; Speak "Perfect, sending now via remote push.";
       Dismiss; Submit i] /\
    (forall e, In e saved -> exists c, e = SaveVoiceContact c) /\
    state (executeConfirm i raw w) = idle /\
    pendingIntent (executeConfirm i raw w) = None /\
    pendingIntentRef (executeConfirm i raw w) = None.
Proof.
  unfold executeConfirm.
  destruct (option_map _ (search name_re raw)) as [n|].
  2:{ exists []; simpl; rewrite <- !app_assoc; repeat split; auto.
      intros e []. }
  destruct (has_phone i) as [p|].
  2:{ exists []; simpl; rewrite <- !app_assoc; repeat split; auto.
      intros e []. }
  destruct (truthy (Some n) && negb (test (Cls is_digit) n)).
  - destruct (beginSave _ (store w)) as [updated st].
    eexists [SaveVoiceContact _]; simpl; rewrite <- !app_assoc.
    repeat split; auto. intros e [<- | []]; eauto.
  - exists []; simpl; rewrite <- !app_assoc; repeat split; auto.
    intros e [].
Qed.

Lemma executeConfirm_submits (i : ParsedIntent) (raw : str) (w : World) :
  exists before, effects (executeConfirm i raw w) = before ++ [Submit i].
Proof.
  destruct (executeConfirm_inv i raw w) as (saved & E & _).
  exists (effects w ++ saved ++
          [CancelSpeech; Speak "Perfect, sending now via remote push.";
           Dismiss]).
  rewrite E, <- !app_assoc; reflexivity.
Qed.

Lemma executeConfirm_safe (i : ParsedIntent) (raw : str) (w : World) :
  concrete i = true -> safe w -> safe (executeConfirm i raw w).
Proof.
  intros Hi (_ & _ & Hs).
  destruct (executeConfirm_inv i raw w) as (saved & E & Hsaved & _ & P & R).
  unfold safe; rewrite P, R, E; simpl; repeat split; auto.
  intros j Hj; rewrite !in_app_iff in Hj; destruct Hj as [Hj | [Hj | Hj]]; auto.
  - destruct (Hsaved _ Hj) as (c & Hc); discriminate.
  - simpl in Hj; destruct Hj as [Hj | [Hj | [Hj | [Hj | []]]]];
      try discriminate.
    now injection Hj as <-.
Qed.

Lemma safe_emit (e : Effect) (w : World) :
  executes e = false -> safe w -> safe (emit e w).
Proof.
  intros He (P & R & Hs); repeat split; auto; simpl.
  intros i Hi; apply in_app_iff in Hi as [Hi | [Hi | []]]; auto.
  subst e; discriminate.
Qed.

Lemma heard_reply_safe (o : Capture) (i : ParsedIntent) (raw : str)
      (w : World) :
  concrete i = true -> safe w -> safe (heard_reply o i raw w).
Proof.
  intros Hi Hw; unfold heard_reply; destruct o as [resp | msg].
  - destruct (test affirm_re (trim resp)).
    + now apply executeConfirm_safe.
    + destruct Hw as (_ & _ & Hs); repeat split; simpl; auto.
      intros j Hj; rewrite !in_app_iff in Hj; simpl in Hj.
      destruct Hj as [[Hj | [Hj | []]] | [Hj | []]]; auto; discriminate.
  - destruct Hw as (P & R & Hs); repeat split; simpl; auto.
    intros j Hj; rewrite !in_app_iff in Hj; simpl in Hj.
    destruct Hj as [Hj | [Hj | []]]; auto; discriminate.
Qed.

Lemma quiet_safe (w w' : World) :
  quiet w w' -> held (pendingIntent w') -> held (pendingIntentRef w') ->
  safe w -> safe w'.
Proof.
  intros [_ (d & E & F)] P R (_ & _ & Hs); repeat split; auto.
  intros i Hi; rewrite E in Hi; apply in_app_iff in Hi as [Hi | Hi]; auto.
  rewrite forallb_forall in F; specialize (F _ Hi); discriminate.
Qed.

Lemma heard_command_safe (o : Capture) (w w' : World)
      (k : option (ParsedIntent * str)) :
  heard_command o w = (w', k) -> safe w ->
  safe w' /\ match k with Some (i, _) => concrete i = true | None => True end.
Proof.
  intros H Hw; destruct (heard_command_inv _ _ _ _ H) as [Q K].
  destruct k as [[i raw]|].
  - destruct K as (_ & Hi & _ & P & R & _); split; auto.
    apply (quiet_safe w); auto; [rewrite P | rewrite R]; exact Hi.
  - destruct K as (_ & P & R); split; auto.
    destruct Hw as (HP & HR & Hs).
    apply (quiet_safe w); auto; [rewrite P | rewrite R | repeat split]; auto.
Qed.

Lemma start_inv (isSupported : bool) (w w1 : World) (waiting : bool) :
  start isSupported w = (w1, waiting) ->
  quiet w w1 /\ store w1 = store w /\
  if waiting
  then state w1 = listening /\ pendingIntent w1 = None /\
       pendingIntentRef w1 = None
  else state w1 = error /\ pendingIntent w1 = pendingIntent w /\
       pendingIntentRef w1 = pendingIntentRef w.
Proof.
  unfold start; destruct isSupported; simpl; intros [= <- <-];
    (split; [eapply quiet_step; simpl; eauto|]); simpl; auto.
Qed.

Lemma confirm_safe (w : World) : safe w -> safe (confirm w).
Proof.
  intros Hw; unfold confirm.
  destruct (pendingIntentRef w) as [i|] eqn:R; auto.
  apply executeConfirm_safe.
  - destruct Hw as (_ & HR & _); rewrite R in HR; exact HR.
  - now apply safe_emit.
Qed.

Lemma cancel_quiet (w : World) :
  quiet w (cancel w) /\ store (cancel w) = store w /\
  state (cancel w) = idle /\ pendingIntent (cancel w) = None /\
  pendingIntentRef (cancel w) = None.
Proof.
  unfold cancel; split; [|simpl; auto].
  apply (quiet_step _ _ [CancelSpeech; Speak "Okay, cancelled."; Dismiss]);
    simpl; rewrite <- ?app_assoc; reflexivity.
Qed.

Lemma settle_safe (n : nat) (t : option Task) (ts : list Task) :
  match t with Some t' => task_safe t' | None => True end ->
  Forall task_safe ts -> Forall task_safe (settle n t ts).
Proof.
  intros Ht; revert n; induction ts as [|t0 ts IH]; intros n H.
  - destruct n; simpl; auto.
  - inversion H; subst; destruct n as [|n]; simpl; [destruct t|]; auto.
Qed.

Lemma nth_task_safe (ts : list Task) (n : nat) (t : Task) :
  Forall task_safe ts -> nth_error ts n = Some t -> task_safe t.
Proof.
  intros H E; rewrite Forall_forall in H; eapply H, nth_error_In; eauto.
Qed.

Lemma step_safe (isSupported : bool) (c : Config) (e : Event) :
  config_safe c -> config_safe (step isSupported c e).
Proof.
  intros [Hw Ht]; destruct e as [| | |n o|n|n o|n]; simpl.
  - destruct (start isSupported (world c)) as [w1 waiting] eqn:E.
    destruct (start_inv _ _ _ _ E) as (Q & _ & K); split; simpl.
    + destruct Hw as (P & R & Hs).
      assert (HP : held (pendingIntent w1) /\ held (pendingIntentRef w1)).
      { destruct waiting; destruct K as (_ & -> & ->); simpl; auto. }
      apply (quiet_safe (world c)); [exact Q | apply HP | apply HP |].
      repeat split; auto.
    + apply Forall_app; split; auto; destruct waiting; repeat constructor.
  - split; simpl; auto; now apply confirm_safe.
  - split; simpl; auto.
    destruct (cancel_quiet (world c)) as (Q & _ & _ & P & R).
    apply (quiet_safe (world c)); auto; [rewrite P | rewrite R]; exact I.
  - destruct (nth_error (tasks c) n) as [[| |]|] eqn:E; try (split; auto; fail).
    destruct (heard_command o (world c)) as [w' k] eqn:Hc.
    destruct (heard_command_safe _ _ _ _ Hc Hw) as [Hw' Hk].
    split; simpl; auto.
    apply settle_safe; auto; destruct k as [[i raw]|]; simpl; auto.
  - destruct (nth_error (tasks c) n) as [[|i raw|]|] eqn:E;
      try (split; auto; fail).
    pose proof (nth_task_safe _ _ _ Ht E) as Hi.
    split; simpl; [|apply settle_safe; auto].
    destruct Hw as (P & R & Hs); repeat split; auto.
  - destruct (nth_error (tasks c) n) as [[| |i raw]|] eqn:E;
      try (split; auto; fail).
    pose proof (nth_task_safe _ _ _ Ht E) as Hi.
    split; simpl; [|apply settle_safe; auto].
    now apply heard_reply_safe.
  - split; simpl; auto; unfold endSave.
    destruct (nth_error (saving (world c)) n); auto.
Qed.

Lemma exec_safe (isSupported : bool) (st : Store) (es : list Event) :
  config_safe (exec isSupported st es).
Proof.
  unfold exec.
  assert (H0 : config_safe (mounted st)).
  { repeat split; simpl; auto; intros i []. }
  revert H0; generalize (mounted st); induction es as [|e es IH];
    intros c Hc; simpl; auto.
  apply IH, step_safe, Hc.
Qed.

(** A run that reaches [awaiting_confirmation]. *)
Lemma session_awaiting (isSupported : bool) (sc : Script) (w w3 : World) :
  nth_error (session isSupported sc w) 2 = Some w3 ->
  exists w1 w2 i raw,
    start isSupported w = (w1, true) /\
    heard_command (command sc) w1 = (w2, Some (i, raw)) /\
    w3 = spoken w2 /\
    session isSupported sc w = [w1; w2; w3; heard_reply (reply sc) i raw w3] /\
    outcome isSupported sc w = heard_reply (reply sc) i raw w3 /\
    quiet w w3 /\ state w3 = awaiting_confirmation /\
    concrete i = true /\ pendingIntent w3 = Some i /\
    pendingIntentRef w3 = Some i /\ transcriptRef w3 = raw.
Proof.
  unfold outcome, session.
  destruct (start isSupported w) as [w1 waiting] eqn:E1.
  destruct waiting; [|discriminate].
  destruct (heard_command (command sc) w1) as [w2 [[i raw]|]] eqn:E2;
    [|discriminate].
  intros [= <-].
  destruct (start_inv _ _ _ _ E1) as (Q1 & _).
  destruct (heard_command_inv _ _ _ _ E2) as (Q2 & _ & Hi & _ & P & R & T & _).
  assert (Q : quiet w (spoken w2)).
  { eapply quiet_trans; [exact Q1|]. eapply quiet_trans; [exact Q2|].
    apply (quiet_step _ _ []); simpl; auto. now rewrite app_nil_r. }
  exists w1, w2, i, raw.
  repeat match goal with |- _ /\ _ => split end; auto.
Qed.

(** ** Sessions *)

Lemma session_confirming (isSupported : bool) (sc : Script) (w w' : World) :
  In w' (session isSupported sc w) ->
  state w' = confirming \/ state w' = awaiting_confirmation ->
  exists i, pendingIntent w' = Some i /\ concrete i = true.
Proof.
  unfold session.
  destruct (start isSupported w) as [w1 waiting] eqn:E1.
  destruct (start_inv _ _ _ _ E1) as (_ & _ & K1).
  intros [<- | Hin] Hs.
  { destruct waiting; destruct K1 as (S1 & _); rewrite S1 in Hs;
      destruct Hs; discriminate. }
  destruct waiting; [|destruct Hin].
  destruct (heard_command (command sc) w1) as [w2 k] eqn:E2.
  destruct (heard_command_inv _ _ _ _ E2) as (_ & K2).
  destruct Hin as [<- | Hin].
  { destruct k as [[i raw]|].
    - destruct K2 as (_ & Hi & _ & P & _); eauto.
    - destruct K2 as (S2 & _); rewrite S2 in Hs; destruct Hs; discriminate. }
  destruct k as [[i raw]|]; [|destruct Hin].
  destruct K2 as (_ & Hi & _ & P & _).
  destruct Hin as [<- | [<- | []]]; [simpl; eauto|].
  unfold heard_reply in *; destruct (reply sc) as [resp | msg].
  - destruct (test affirm_re (trim resp)).
    + destruct (executeConfirm_inv i raw (spoken w2)) as (_ & _ & _ & S & _).
      rewrite S in Hs; destruct Hs; discriminate.
    + simpl in Hs; destruct Hs; discriminate.
  - simpl; eauto.
Qed.

Lemma named_payment_rewritten (w w' : World) (raw a n raw' : str)
      (i : ParsedIntent) :
  parseIntent raw = Some (NAMED_PAYMENT a n) ->
  heard_command (Heard raw) w = (w', Some (i, raw')) ->
  concrete i = true /\ pendingIntent w' = Some i /\
  (exists c, fst (resolveContact n (store w)) = Some c /\ variant_for a c i) /\
  exists before, effects w' = before ++ [Speak (readback_prompt i)].
Proof.
  intros Hp H.
  destruct (heard_command_inv _ _ _ _ H) as (_ & _ & Hi & _ & P & _ & _ & E).
  repeat match goal with |- _ /\ _ => split end; auto.
  unfold heard_command in H; rewrite Hp in H; simpl in H.
  destruct (resolveContact n (store w)) as [c st]; simpl.
  destruct (rewrite_named a n c) as [j | msg] eqn:R; [|discriminate].
  injection H as _ <- _.
  destruct (rewrite_named_variant _ _ _ _ R) as (c' & -> & V); eauto.
Qed.

(** A session is the schedule in which the run of [start] is alone and
    gets the outcomes of its awaits one after the other. *)
Lemma session_is_a_schedule (isSupported : bool) (sc : Script) (w : World) :
  world (fold_left (step isSupported)
                   [EvStart; EvCommand 0 (command sc); EvSpoken 0;
                    EvReply 0 (reply sc)]
                   {| world := w; tasks := [] |}) =
  outcome isSupported sc w.
Proof.
  unfold outcome, session; cbn [fold_left step world tasks app].
  destruct (start isSupported w) as [w1 [|]]; cbn [world tasks nth_error].
  - destruct (heard_command (command sc) w1) as [w2 [[i raw]|]];
      cbn [world tasks nth_error settle option_map fst snd last];
      reflexivity.
  - reflexivity.
Qed.

(** C1: no named payment is ever pending or submitted.  However starts,
    taps and the outcomes of captures and readbacks are scheduled, the
    pending intent (state and ref) is absent or one of the five concrete
    variants, every intent handed to the submission callback is concrete,
    and so is the intent any suspended run holds.  In a session, whenever
    the state is [confirming] or [awaiting_confirmation] an intent is
    pending and it is concrete.  A parsed NAMED_PAYMENT that is read back
    has been rewritten beforehand into the variant the resolved contact's
    type selects: "pay kplc 500" becomes a PAYBILL for a paybill contact
    and "pay david 500" a TILL for a till contact. *)
Theorem named_payment_never_pending :
  (forall isSupported st es, config_safe (exec isSupported st es)) /\
  (forall isSupported sc w w',
      In w' (session isSupported sc w) ->
      state w' = confirming \/ state w' = awaiting_confirmation ->
      exists i, pendingIntent w' = Some i /\ concrete i = true) /\
  (forall w w' raw a n raw' i,
      parseIntent raw = Some (NAMED_PAYMENT a n) ->
      heard_command (Heard raw) w = (w', Some (i, raw')) ->
      concrete i = true /\ pendingIntent w' = Some i /\
      (exists c,
          fst (resolveContact n (store w)) = Some c /\ variant_for a c i) /\
      exists before, effects w' = before ++ [Speak (readback_prompt i)]) /\
  snd (heard_command (Heard "pay kplc 500") (fresh [kplc_prepaid])) =
    Some (PAYBILL "500" "888880" "1234", "pay kplc 500" : str) /\
  snd (heard_command (Heard "pay david 500") (fresh [david_till])) =
    Some (TILL "500" "522533", "pay david 500" : str).
Proof.
  split; [exact exec_safe|]; split; [exact session_confirming|].
  split; [|split; vm_compute; reflexivity].
  intros; eapply named_payment_rewritten; eauto.
Qed.

Lemma confirm_nothing_pending (w : World) :
  pendingIntentRef w = None -> confirm w = w.
Proof. unfold confirm; now intros ->. Qed.

Lemma named_paybill_session
      (sc : Script) (w : World) (raw a n : str) (c : VoiceContact) :
  command sc = Heard raw ->
  parseIntent raw = Some (NAMED_PAYMENT a n) ->
  fst (resolveContact n (store w)) = Some c ->
  type c = Some paybill ->
  truthy (accountNumber c) = false ->
  session true sc w =
    [fst (start true w);
     setError
       (name c ++
        " needs an account number. Edit the contact to add one, or say: pay bill "
        ++ phone c ++ " account <number> " ++ a)
       (setStore (snd (resolveContact n (store w)))
          (setState processing
             (setTranscriptRef raw
                (setTranscript raw (fst (start true w))))))].
Proof.
  intros Hc Hp Hr Ht Ha.
  unfold session; simpl.
  rewrite Hc; unfold heard_command; rewrite Hp; simpl.
  destruct (resolveContact n (store w)) as [c' st]; simpl in *.
  rewrite Hr; simpl; rewrite Ht, Ha; reflexivity.
Qed.

(** C2: when the command is a NAMED_PAYMENT whose contact is a paybill
    without an account number (absent, or empty), the session is over once
    the command is processed: it ends in [error] with the message that
    asks for the account number, nothing is pending, all it has done is
    cancel speech and speak that message, so the submission callback was
    not called, and a tap on confirm afterwards does nothing. *)
Theorem paybill_contact_without_account_errors
        (sc : Script) (w : World) (raw a n : str) (c : VoiceContact) :
  command sc = Heard raw ->
  parseIntent raw = Some (NAMED_PAYMENT a n) ->
  fst (resolveContact n (store w)) = Some c ->
  type c = Some paybill ->
  truthy (accountNumber c) = false ->
  let msg :=
    name c ++
    " needs an account number. Edit the contact to add one, or say: pay bill "
    ++ phone c ++ " account <number> " ++ a in
  let w' := outcome true sc w in
  length (session true sc w) = 2 /\
  state w' = error /\ errorMessage w' = msg /\
  effects w' = effects w ++ [CancelSpeech; Speak msg] /\
  (forall i, In (Submit i) (effects w') -> In (Submit i) (effects w)) /\
  pendingIntent w' = None /\ confirm w' = w'.
Proof.
  intros Hc Hp Hr Ht Ha msg w'.
  pose proof (named_paybill_session sc w raw a n c Hc Hp Hr Ht Ha) as E.
  unfold w', outcome; rewrite E; fold msg.
  split; [reflexivity|]; split; [reflexivity|]; split; [reflexivity|].
  split; [simpl; now rewrite <- app_assoc|].
  split; [|split; [reflexivity | apply confirm_nothing_pending; reflexivity]].
  intros i Hi; simpl in Hi; rewrite !in_app_iff in Hi; simpl in Hi.
  destruct Hi as [[Hi | [Hi | []]] | [Hi | []]]; auto; discriminate.
Qed.

Lemma paybill_contact_without_account_errors_witness :
  parseIntent "pay kplc 500" = Some (NAMED_PAYMENT "500" "kplc") /\
  fst (resolveContact "kplc" (store (fresh [kplc]))) = Some kplc /\
  state (outcome true (says "pay kplc 500" "yes") (fresh [kplc])) = error /\
  pendingIntent (outcome true (says "pay kplc 500" "yes") (fresh [kplc])) =
    None.
Proof.
  assert (Hp : parseIntent "pay kplc 500" =
               Some (NAMED_PAYMENT "500" "kplc"))
    by (vm_compute; reflexivity).
  assert (Hr : fst (resolveContact "kplc" (store (fresh [kplc]))) = Some kplc)
    by (vm_compute; reflexivity).
  pose proof (paybill_contact_without_account_errors
                (says "pay kplc 500" "yes") (fresh [kplc])
                "pay kplc 500" "500" "kplc" kplc
                eq_refl Hp Hr eq_refl eq_refl) as H.
  cbv zeta in H; split; [exact Hp|]; split; [exact Hr|]; split; apply H.
Defined.

(** C7: when the capture of the reply fails in [awaiting_confirmation],
    the session goes back to [confirming], not to [error]; it speaks the
    retry prompt, leaves the store alone and keeps the pending intent,
    which a tap on confirm then submits. *)
Theorem failed_reply_keeps_intent
        (isSupported : bool) (sc : Script) (w w3 : World)
        (message : option str) :
  nth_error (session isSupported sc w) 2 = Some w3 ->
  reply sc = CaptureError message ->
  let w4 := outcome isSupported sc w in
  state w3 = awaiting_confirmation /\
  state w4 = confirming /\ state w4 <> error /\ store w4 = store w3 /\
  effects w4 =
    effects w3 ++ [Speak "I couldn't hear you. Tap yes or no on screen."] /\
  exists i,
    pendingIntent w3 = Some i /\ pendingIntent w4 = Some i /\
    pendingIntentRef w4 = Some i /\
    exists before, effects (confirm w4) = before ++ [Submit i].
Proof.
  intros H Hr w4.
  destruct (session_awaiting _ _ _ _ H)
    as (w1 & w2 & i & raw & _ & _ & _ & _ & O & _ & S & _ & P & R & _).
  unfold w4; rewrite O, Hr; simpl.
  repeat match goal with |- _ /\ _ => split end; auto; try discriminate.
  exists i; repeat match goal with |- _ /\ _ => split end; auto.
  unfold confirm; simpl; rewrite R.
  apply executeConfirm_submits.
Qed.

Lemma failed_reply_keeps_intent_witness :
  state (third (unheard "pay till 522533 500") (fresh [])) =
    awaiting_confirmation /\
  state (outcome true (unheard "pay till 522533 500") (fresh [])) =
    confirming /\
  pendingIntent (outcome true (unheard "pay till 522533 500") (fresh [])) =
    Some (TILL "500" "522533").
Proof.
  assert (H3 : nth_error
                 (session true (unheard "pay till 522533 500") (fresh [])) 2 =
               Some (third (unheard "pay till 522533 500") (fresh [])))
    by (vm_compute; reflexivity).
  pose proof (failed_reply_keeps_intent true
                (unheard "pay till 522533 500") (fresh [])
                (third (unheard "pay till 522533 500") (fresh [])) None
                H3 eq_refl) as H.
  cbv zeta in H; destruct H as (S3 & S & _ & _ & _ & i & P3 & P4 & _).
  split; [exact S3|]; split; [exact S|].
  rewrite P4, <- P3; vm_compute; reflexivity.
Defined.

(** When a session at [awaiting_confirmation] gets a reply that does not
    confirm, or at the moment [cancel] returns, nothing has been executed:
    since the session started the directory lists the same contacts, no
    contact was saved and the submission callback was not called; the
    store is the one it had while awaiting; the hook is idle with nothing
    pending, so that a tap on confirm afterwards does nothing.  "no" does
    not confirm.  What the run does after [cancel] has returned is another
    matter, see below. *)
Theorem cancelled_session_is_quiet
        (isSupported : bool) (sc : Script) (w w3 : World) :
  nth_error (session isSupported sc w) 2 = Some w3 ->
  state w3 = awaiting_confirmation /\
  (quiet w (cancel w3) /\ store (cancel w3) = store w3 /\
   state (cancel w3) = idle /\ pendingIntent (cancel w3) = None /\
   confirm (cancel w3) = cancel w3) /\
  (forall response,
      reply sc = Heard response -> affirmative response = false ->
      let w4 := outcome isSupported sc w in
      quiet w w4 /\ store w4 = store w3 /\ state w4 = idle /\
      pendingIntent w4 = None /\ confirm w4 = w4) /\
  affirmative "no" = false.
Proof.
  intros H.
  destruct (session_awaiting _ _ _ _ H)
    as (w1 & w2 & i & raw & _ & _ & _ & _ & O & Q & S & _).
  split; [exact S|]; split; [|split; [|reflexivity]].
  - destruct (cancel_quiet w3) as (Qc & Sc & Ic & Pc & Rc).
    split; [eapply quiet_trans; eauto|].
    split; [exact Sc|]; split; [exact Ic|]; split; [exact Pc|].
    now apply confirm_nothing_pending.
  - intros resp Hr Ha w4; unfold w4; rewrite O, Hr; unfold heard_reply.
    rewrite affirm_re_affirmative, Ha.
    split; [|split; [reflexivity|]; split; [reflexivity|];
             split; [reflexivity|]; apply confirm_nothing_pending;
             reflexivity].
    eapply quiet_trans; [exact Q|].
    apply (quiet_step _ _ [Speak "Okay, no problem. Cancelled."; Dismiss]);
      simpl; rewrite <- ?app_assoc; reflexivity.
Qed.

Lemma cancelled_session_is_quiet_witness :
  state (third (says "send 500 to David" "no") (fresh [david])) =
    awaiting_confirmation /\
  contacts (store (cancel (third (says "send 500 to David" "no")
                                 (fresh [david])))) = [david] /\
  contacts (store (outcome true (says "send 500 to David" "no")
                           (fresh [david]))) = [david].
Proof.
  assert (H3 : nth_error
                 (session true (says "send 500 to David" "no")
                          (fresh [david])) 2 =
               Some (third (says "send 500 to David" "no") (fresh [david])))
    by (vm_compute; reflexivity).
  assert (Hn : affirmative "no" = false) by (vm_compute; reflexivity).
  pose proof (cancelled_session_is_quiet true
                (says "send 500 to David" "no") (fresh [david])
                (third (says "send 500 to David" "no") (fresh [david]))
                H3) as (S3 & (Qc & _) & Hno & _).
  specialize (Hno "no" eq_refl Hn); cbv zeta in Hno.
  destruct Hno as (Qn & _).
  split; [exact S3|]; split;
    [rewrite (proj1 Qc) | rewrite (proj1 Qn)]; reflexivity.
Defined.

(** C8: a session cancelled at [awaiting_confirmation] by the cancel
    operation is not over.  With David in the directory, "send 500 to
    david" is read back and the session awaits the reply; [cancel] leaves
    the hook idle with nothing pending and nothing executed, but the run
    of [start] still listens; when it then hears "ok never mind" it
    executes the payment: it calls [saveVoiceContact] and the submission
    callback, and once the save is over the directory has changed. *)
Theorem cancel_does_not_end_the_session :
  state (world (exec true (directory [david])
                  [EvStart; EvCommand 0 (Heard "send 500 to david");
                   EvSpoken 0])) = awaiting_confirmation /\
  state (world (exec true (directory [david])
                  [EvStart; EvCommand 0 (Heard "send 500 to david");
                   EvSpoken 0; EvCancel])) = idle /\
  filter executes
    (effects (world (exec true (directory [david])
                       [EvStart; EvCommand 0 (Heard "send 500 to david");
                        EvSpoken 0; EvCancel]))) = [] /\
  filter executes
    (effects (world (exec true (directory [david])
                       [EvStart; EvCommand 0 (Heard "send 500 to david");
                        EvSpoken 0; EvCancel;
                        EvReply 0 (Heard "ok never mind")]))) =
    [SaveVoiceContact
       {| name := "david"; type := None; phone := "0712345678";
          accountNumber := None |};
     Submit (SEND_MONEY "500" "0712345678")] /\
  contacts (store (world (exec true (directory [david])
                            [EvStart;
                             EvCommand 0 (Heard "send 500 to david");
                             EvSpoken 0; EvCancel;
                             EvReply 0 (Heard "ok never mind");
                             EvSaved 0]))) =
    [{| name := "david"; type := Some mobile; phone := "0712345678";
        accountNumber := None |}] /\
  contacts (directory [david]) <>
    [{| name := "david"; type := Some mobile; phone := "0712345678";
        accountNumber := None |}].
Proof.
  repeat match goal with |- _ /\ _ => split end;
    try (vm_compute; reflexivity).
  vm_compute; discriminate.
Qed.

(** C9: the reply confirms exactly when, trimmed, it begins with one of
    yes, yeah, yep, yup, confirm, send, do it, go, ok, okay, letter case
    aside and whatever follows, as in "yesterday" or "good".  Such a reply
    makes the session submit the pending intent; any other reply makes it
    speak the cancellation and dismiss, and nothing else. *)
Theorem confirmation_is_a_prefix_test
        (isSupported : bool) (sc : Script) (w w3 : World) (response : str) :
  nth_error (session isSupported sc w) 2 = Some w3 ->
  reply sc = Heard response ->
  let w4 := outcome isSupported sc w in
  (affirmative response = true ->
   exists i before,
     pendingIntent w3 = Some i /\
     w4 = executeConfirm i (transcriptRef w3) w3 /\
     effects w4 = before ++ [Submit i]) /\
  (affirmative response = false ->
   effects w4 =
     effects w3 ++ [Speak "Okay, no problem. Cancelled."; Dismiss] /\
   store w4 = store w3 /\ state w4 = idle /\ pendingIntent w4 = None) /\
  affirmative "yesterday" = true /\ affirmative "good" = true /\
  affirmative " Yes please" = true /\ affirmative "no" = false /\
  affirmative "I said yes" = false.
Proof.
  intros H Hr w4.
  destruct (session_awaiting _ _ _ _ H)
    as (w1 & w2 & i & raw & _ & _ & _ & _ & O & _ & _ & _ & P & _ & T).
  unfold w4; rewrite O, Hr; unfold heard_reply.
  rewrite affirm_re_affirmative.
  split; [|split; [|repeat split; reflexivity]]; intros ->.
  - destruct (executeConfirm_submits i raw w3) as (before & E).
    exists i, before; rewrite T; auto.
  - simpl; rewrite <- app_assoc; auto.
Qed.

Lemma confirmation_is_a_prefix_test_witness :
  state (third (says "pay till 522533 500" "yesterday") (fresh [])) =
    awaiting_confirmation /\
  exists before,
    effects (outcome true (says "pay till 522533 500" "yesterday")
                     (fresh [])) =
      before ++ [Submit (TILL "500" "522533")].
Proof.
  assert (H3 : nth_error
                 (session true (says "pay till 522533 500" "yesterday")
                          (fresh [])) 2 =
               Some (third (says "pay till 522533 500" "yesterday")
                           (fresh [])))
    by (vm_compute; reflexivity).
  assert (Hy : affirmative "yesterday" = true) by (vm_compute; reflexivity).
  pose proof (confirmation_is_a_prefix_test true
                (says "pay till 522533 500" "yesterday") (fresh [])
                (third (says "pay till 522533 500" "yesterday") (fresh []))
                "yesterday" H3 eq_refl) as H.
  cbv zeta in H; destruct H as [H _].
  destruct (H Hy) as (i & before & P & _ & E).
  split; [vm_compute; reflexivity|].
  assert (Ei : i = TILL "500" "522533").
  { vm_compute in P; now injection P as <-. }
  rewrite Ei in E; exists before; exact E.
Defined.

(** Remark.  [cancel] discards what the hook holds but not the run of
    [start] that waits for the reply: the run stays suspended with its own
    copy of the intent, and goes on when its capture ends. *)
Lemma cancel_leaves_run_suspended (isSupported : bool) (c : Config) :
  tasks (step isSupported c EvCancel) = tasks c.
Proof. reflexivity. Qed.

Example late_reply_after_cancel :
  exists before,
    effects (world (exec true (directory [david])
                      [EvStart; EvCommand 0 (Heard "pay till 522533 500");
                       EvSpoken 0; EvCancel; EvReply 0 (Heard "okay")])) =
      before ++ [Submit (TILL "500" "522533")].
Proof.
  exists (removelast
            (effects
               (world
                  (exec true (directory [david])
                     [EvStart; EvCommand 0 (Heard "pay till 522533 500");
                      EvSpoken 0; EvCancel; EvReply 0 (Heard "okay")])))).
  vm_compute; reflexivity.
Qed.

(** ** Name resolution *)

Lemma resolvePhoneOrName_by_name (q : str) (st : Store) :
  isPhoneNumber (trim q) = false ->
  fst (resolvePhoneOrName q st) =
  option_map phone
    (lookup (toLowerCase (trim q))
            (filter (fun c => is_mobile_type (type c)) (contacts st))).
Proof.
  intros H; unfold resolvePhoneOrName, contacts; rewrite H.
  now destruct (getVoiceContacts st).
Qed.

Lemma resolveContact_lookup (q : str) (st : Store) :
  fst (resolveContact q st) = lookup (toLowerCase (trim q)) (contacts st).
Proof.
  unfold resolveContact, contacts; now destruct (getVoiceContacts st).
Qed.


Lemma find_nothing {A} (f : A -> bool) (l : list A) :
  (forall y, In y l -> f y = false) -> find f l = None.
Proof.
  induction l as [|a l IH]; simpl; intros H; auto.
  rewrite (H a) by auto; auto.
Qed.











(** * More of the code *)

(** ** The contact directory *)

Lemma str_eqb_refl (s : str) : str_eqb s s = true.
Proof. now apply str_eqb_eq. Qed.

Lemma contacts_saved (c : VoiceContact) (st : Store) :
  contacts (saveVoiceContact c st) =
  if encrypts st then upsert (entry_of c) (contacts st) else contacts st.
Proof.
  unfold saveVoiceContact, beginSave, contacts, getVoiceContacts,
    persistContacts.
  destruct (cache st) as [cs|] eqn:C; simpl.
  - destruct (encrypts st) eqn:E; simpl; [reflexivity | now rewrite C].
  - destruct (sessionItem st) as [cs|] eqn:S; simpl.
    + destruct (encrypts st); reflexivity.
    + destruct (encrypts st) eqn:E; simpl; [reflexivity | now rewrite C, S].
Qed.

Lemma contacts_deleted (n : str) (st : Store) :
  contacts (deleteVoiceContact n st) =
  if encrypts st
  then filter (fun c => negb (same_name (name c) n)) (contacts st)
  else contacts st.
Proof.
  unfold deleteVoiceContact, contacts, getVoiceContacts, persistContacts.
  destruct (cache st) as [cs|] eqn:C; simpl.
  - destruct (encrypts st) eqn:E; simpl; [reflexivity | now rewrite C].
  - destruct (sessionItem st) as [cs|] eqn:S; simpl.
    + destruct (encrypts st); reflexivity.
    + destruct (encrypts st) eqn:E; simpl; [reflexivity | now rewrite C, S].
Qed.

Lemma find_filter {A} (f g : A -> bool) (l : list A) :
  find f (filter g l) = find (fun x => g x && f x) l.
Proof.
  induction l as [|a l IH]; simpl; auto.
  destruct (g a); simpl; auto. now rewrite IH.
Qed.

Lemma find_upsert (g : VoiceContact -> bool) (e : VoiceContact)
      (cs : list VoiceContact) :
  g e = true ->
  find (fun c => g c && exact_match (toLowerCase (name e)) c) (upsert e cs) =
  Some e.
Proof.
  intros Hg; unfold exact_match.
  induction cs as [|c cs IH]; simpl.
  - now rewrite Hg, str_eqb_refl.
  - unfold same_name at 1.
    destruct (str_eqb (toLowerCase (name c)) (toLowerCase (name e))) eqn:E;
      simpl.
    + now rewrite Hg, str_eqb_refl.
    + now rewrite E, andb_false_r.
Qed.

Lemma lookup_upsert (g : VoiceContact -> bool) (e : VoiceContact)
      (cs : list VoiceContact) :
  g e = true ->
  lookup (toLowerCase (name e)) (filter g (upsert e cs)) = Some e.
Proof.
  intros Hg; unfold lookup.
  now rewrite find_filter, find_upsert.
Qed.

(** X1: saving then looking up.  Once a contact is saved (the store
    encrypts) under a name without surrounding white space,
    [resolveContact] on that name gives the entry written for it; and
    when the contact is mobile, pochi or untyped and its name is not
    phone-shaped, [resolvePhoneOrName] gives its normalised phone. *)
Theorem saved_contact_is_found (c : VoiceContact) (st : Store) :
  encrypts st = true ->
  trim (name c) = name c ->
  fst (resolveContact (name c) (saveVoiceContact c st)) = Some (entry_of c) /\
  (is_mobile_type (type c) = true ->
   isPhoneNumber (name c) = false ->
   fst (resolvePhoneOrName (name c) (saveVoiceContact c st)) =
     Some (normalizePhone (phone c))).
Proof.
  intros He Ht; split.
  - rewrite resolveContact_lookup, contacts_saved, He, Ht.
    pose proof (find_upsert (fun _ => true) (entry_of c) (contacts st)
                            eq_refl) as H.
    unfold lookup; cbn [andb name entry_of] in H.
    change (fun c0 : VoiceContact => exact_match (toLowerCase (name c)) c0)
      with (exact_match (toLowerCase (name c))) in H.
    now rewrite H.
  - intros Hm Hp.
    rewrite resolvePhoneOrName_by_name by now rewrite Ht.
    rewrite contacts_saved, He, Ht.
    rewrite (lookup_upsert (fun c => is_mobile_type (type c)) (entry_of c)).
    + simpl; now rewrite Hm.
    + simpl; now destruct (type c) as [[]|].
Qed.

Lemma saved_contact_is_found_witness :
  encrypts (directory []) = true /\ trim (name david) = name david /\
  fst (resolveContact "David" (saveVoiceContact david (directory []))) =
    Some (entry_of david).
Proof.
  split; [reflexivity|]; split; [vm_compute; reflexivity|].
  apply (saved_contact_is_found david (directory []));
    vm_compute; reflexivity.
Defined.

Lemma names_upsert (e : VoiceContact) (cs : list VoiceContact) (x : str) :
  In x (map (fun c => toLowerCase (name c)) (upsert e cs)) ->
  In x (map (fun c => toLowerCase (name c)) cs) \/ x = toLowerCase (name e).
Proof.
  induction cs as [|c cs IH]; simpl.
  - intros [<- | []]; auto.
  - destruct (same_name (name c) (name e)) eqn:E; simpl.
    + unfold same_name in E; apply str_eqb_eq in E.
      intros [<- | H]; auto.
    + intros [<- | H]; auto. destruct (IH H); auto.
Qed.

Lemma unique_upsert (e : VoiceContact) (cs : list VoiceContact) :
  unique_names cs -> unique_names (upsert e cs).
Proof.
  unfold unique_names; induction cs as [|c cs IH]; simpl; intros H.
  - repeat constructor; intros [].
  - inversion H as [|x l Hx Hl]; subst.
    destruct (same_name (name c) (name e)) eqn:E; simpl.
    + unfold same_name in E; apply str_eqb_eq in E.
      constructor; [now rewrite <- E | exact Hl].
    + constructor; auto.
      intros Hin; apply names_upsert in Hin as [Hin | Heq]; auto.
      unfold same_name in E; rewrite Heq, str_eqb_refl in E; discriminate.
Qed.

Lemma unique_filter (f : VoiceContact -> bool) (cs : list VoiceContact) :
  unique_names cs -> unique_names (filter f cs).
Proof.
  unfold unique_names; induction cs as [|c cs IH]; simpl; intros H; auto.
  inversion H as [|x l Hx Hl]; subst.
  destruct (f c); simpl; auto.
  constructor; auto.
  intros Hin; apply Hx.
  apply in_map_iff in Hin as (y & Hy & Hin).
  apply filter_In in Hin as [Hin _].
  apply in_map_iff; eauto.
Qed.

(** X2: names stay keys.  When no two contacts of the directory have the
    same name, letter case aside, none have after [saveVoiceContact],
    after [deleteVoiceContact] or after [clearVoiceContacts], whether the
    store encrypts or not. *)
Theorem names_stay_unique (st : Store) :
  unique_names (contacts st) ->
  (forall c, unique_names (contacts (saveVoiceContact c st))) /\
  (forall n, unique_names (contacts (deleteVoiceContact n st))) /\
  unique_names (contacts (clearVoiceContacts st)).
Proof.
  intros H; split; [|split].
  - intros c; rewrite contacts_saved.
    destruct (encrypts st); [now apply unique_upsert | exact H].
  - intros n; rewrite contacts_deleted.
    destruct (encrypts st); [now apply unique_filter | exact H].
  - constructor.
Qed.

Lemma names_stay_unique_witness :
  unique_names (contacts (directory [david; kplc])) /\
  unique_names
    (contacts (saveVoiceContact davidson (directory [david; kplc]))).
Proof.
  assert (H : unique_names (contacts (directory [david; kplc]))).
  { unfold unique_names; vm_compute.
    repeat constructor; simpl; intuition discriminate. }
  split; [exact H|].
  exact (proj1 (names_stay_unique (directory [david; kplc]) H) davidson).
Defined.

Lemma upsert_twice (e : VoiceContact) (cs : list VoiceContact) :
  upsert e (upsert e cs) = upsert e cs.
Proof.
  assert (R : same_name (name e) (name e) = true) by apply str_eqb_refl.
  induction cs as [|c cs IH]; simpl; [now rewrite R|].
  destruct (same_name (name c) (name e)) eqn:E; simpl.
  - now rewrite R.
  - now rewrite E, IH.
Qed.

Lemma encrypts_saved (c : VoiceContact) (st : Store) :
  encrypts (saveVoiceContact c st) = encrypts st.
Proof.
  unfold saveVoiceContact, beginSave, getVoiceContacts, persistContacts.
  destruct (cache st); simpl.
  - destruct (encrypts st) eqn:E; simpl; auto.
  - destruct (sessionItem st); simpl; destruct (encrypts st) eqn:E; simpl; auto.
Qed.

(** X3: saving the same contact twice is saving it once: the directory
    lists the same contacts after the second save as after the first. *)
Theorem save_twice_is_save_once (c : VoiceContact) (st : Store) :
  contacts (saveVoiceContact c (saveVoiceContact c st)) =
  contacts (saveVoiceContact c st).
Proof.
  rewrite (contacts_saved c (saveVoiceContact c st)), encrypts_saved.
  rewrite contacts_saved.
  destruct (encrypts st); auto using upsert_twice.
Qed.

Lemma upsert_new (e : VoiceContact) (cs : list VoiceContact) :
  (forall c, In c cs -> same_name (name c) (name e) = false) ->
  upsert e cs = cs ++ [e].
Proof.
  induction cs as [|c cs IH]; simpl; intros H; auto.
  rewrite (H c) by auto; rewrite IH; auto.
Qed.

(** X4: deleting.  When the store encrypts, the directory after
    [deleteVoiceContact] is the directory before without the contacts of
    that name, letter case aside, the others in the order they had: no
    contact of that name is left, and every other contact is kept;
    deleting a contact just saved under a name the directory did not have
    gives the directory back. *)
Theorem delete_removes_the_name (st : Store) :
  encrypts st = true ->
  (forall n,
      contacts (deleteVoiceContact n st) =
      filter (fun c => negb (same_name (name c) n)) (contacts st)) /\
  (forall n c,
      In c (contacts (deleteVoiceContact n st)) <->
      In c (contacts st) /\ same_name (name c) n = false) /\
  (forall c,
      (forall c', In c' (contacts st) ->
                  same_name (name c') (name c) = false) ->
      contacts (deleteVoiceContact (name c) (saveVoiceContact c st)) =
      contacts st).
Proof.
  intros He; split; [|split].
  - intros n; now rewrite contacts_deleted, He.
  - intros n c; rewrite contacts_deleted, He, filter_In.
    now rewrite negb_true_iff.
  - intros c Hnew.
    rewrite contacts_deleted, encrypts_saved, He, contacts_saved, He.
    rewrite upsert_new by exact Hnew.
    rewrite filter_app; simpl.
    change (name (entry_of c)) with (name c).
    unfold same_name at 2; rewrite str_eqb_refl; simpl.
    rewrite app_nil_r.
    apply forallb_filter_id.
    apply forallb_forall; intros c' Hc'; now rewrite (Hnew c' Hc').
Qed.

Lemma delete_removes_the_name_witness :
  encrypts (directory [kplc]) = true /\
  contacts (deleteVoiceContact "David"
              (saveVoiceContact david (directory [kplc]))) = [kplc].
Proof.
  split; [reflexivity|].
  refine (proj2 (proj2 (delete_removes_the_name (directory [kplc]) eq_refl))
                david _).
  intros c' [<- | []]; vm_compute; reflexivity.
Defined.

Lemma lookup_found (lower : str) (cs : list VoiceContact) (c : VoiceContact) :
  lookup lower cs = Some c ->
  In c cs /\
  (exact_match lower c = true \/
   (forall c', In c' cs -> exact_match lower c' = false)).
Proof.
  unfold lookup.
  destruct (find (exact_match lower) cs) as [x|] eqn:E1.
  { intros [= <-]; apply find_some in E1 as [? ?]; auto. }
  assert (Hn : forall c', In c' cs -> exact_match lower c' = false)
    by (intros c' Hc'; eapply find_none; eauto).
  destruct (find (prefix_match lower) cs) as [x|] eqn:E2.
  { intros [= <-]; apply find_some in E2 as [? ?]; auto. }
  intros E3; apply find_some in E3 as [? ?]; auto.
Qed.

(** X5: [resolvePhoneOrName] never answers with a till or a paybill.
    Whatever it returns for a query that is not phone-shaped is the phone
    of a contact of the directory whose type is mobile, pochi or absent. *)
Theorem resolved_phone_is_a_mobile_contact
        (q p : str) (st : Store) :
  isPhoneNumber (trim q) = false ->
  fst (resolvePhoneOrName q st) = Some p ->
  exists c,
    In c (contacts st) /\ phone c = p /\
    type c <> Some till /\ type c <> Some paybill.
Proof.
  intros Hq H; rewrite resolvePhoneOrName_by_name in H by exact Hq.
  destruct (lookup _ _) as [c|] eqn:E; [|discriminate].
  injection H as <-.
  apply lookup_found in E as [Hin _]; apply filter_In in Hin as [Hin Hm].
  exists c; repeat split; auto; intros T; rewrite T in Hm; discriminate.
Qed.

Lemma resolved_phone_is_a_mobile_contact_witness :
  isPhoneNumber (trim "dav") = false /\
  exists c,
    In c [david_till; davidson] /\ phone c = ("0700000001" : str) /\
    type c <> Some till /\ type c <> Some paybill.
Proof.
  assert (Hq : isPhoneNumber (trim "dav") = false)
    by (vm_compute; reflexivity).
  assert (H : fst (resolvePhoneOrName "dav"
                     (directory [david_till; davidson])) =
              Some ("0700000001" : str)) by (vm_compute; reflexivity).
  split; [exact Hq|].
  exact (resolved_phone_is_a_mobile_contact
           "dav" "0700000001" (directory [david_till; davidson]) Hq H).
Defined.

(** X6: [resolveContact] answers with a contact of the directory, and an
    exact name goes first: when some contact has the trimmed query for
    name, letter case aside, the contact returned has that name, even if a
    contact listed before it matches by prefix. *)
Theorem resolved_contact_prefers_exact_name
        (q : str) (st : Store) (c : VoiceContact) :
  fst (resolveContact q st) = Some c ->
  In c (contacts st) /\
  ((exists c0, In c0 (contacts st) /\ same_name (name c0) (trim q) = true) ->
   same_name (name c) (trim q) = true).
Proof.
  rewrite resolveContact_lookup; intros H.
  apply lookup_found in H as [Hin Hc]; split; [exact Hin|].
  intros (c0 & Hc0 & E); destruct Hc as [He | Hn]; [exact He|].
  specialize (Hn c0 Hc0).
  unfold exact_match in Hn; unfold same_name in E; congruence.
Qed.

Lemma resolved_contact_prefers_exact_name_witness :
  fst (resolveContact "david" (directory [davidson; david])) = Some david /\
  In david (contacts (directory [davidson; david])).
Proof.
  assert (H : fst (resolveContact "david" (directory [davidson; david])) =
              Some david) by (vm_compute; reflexivity).
  split; [exact H|].
  exact (proj1 (resolved_contact_prefers_exact_name
                  "david" (directory [davidson; david]) david H)).
Defined.

Lemma drop_space_blank (s : str) :
  forallb is_space s = true -> drop_space s = [].
Proof.
  induction s as [|x s IH]; simpl; auto.
  rewrite andb_true_iff; intros [-> H]; auto.
Qed.

Lemma trim_blank (s : str) : forallb is_space s = true -> trim s = [].
Proof.
  intros H; unfold trim; rewrite (drop_space_blank s H); reflexivity.
Qed.

Lemma hd_filter {A} (f : A -> bool) (l : list A) :
  hd_error (filter f l) = find f l.
Proof. induction l as [|a l IH]; simpl; auto. destruct (f a); auto. Qed.

(** X7: a blank query matches every name by prefix.  In a directory where
    no contact has an empty name, [resolveContact] on an empty or
    all-white-space query gives the first contact, and
    [resolvePhoneOrName] the phone of the first contact that is mobile,
    pochi or untyped; both give none only when there is no such contact. *)
Theorem blank_query_takes_the_first_contact (q : str) (st : Store) :
  forallb is_space q = true ->
  (forall c, In c (contacts st) -> name c <> []) ->
  fst (resolveContact q st) = hd_error (contacts st) /\
  fst (resolvePhoneOrName q st) =
    option_map phone
      (find (fun c => is_mobile_type (type c)) (contacts st)).
Proof.
  intros Hq Hn.
  assert (Hl : forall cs,
             (forall c, In c cs -> name c <> []) ->
             lookup [] cs = hd_error cs).
  { intros cs H; unfold lookup.
    rewrite find_nothing.
    - destruct cs as [|c cs]; reflexivity.
    - intros c Hc; unfold exact_match.
      destruct (toLowerCase (name c)) eqn:E; auto.
      apply map_eq_nil in E; now apply H in Hc. }
  split.
  - rewrite resolveContact_lookup, (trim_blank _ Hq); simpl; auto.
  - rewrite resolvePhoneOrName_by_name
      by (rewrite (trim_blank _ Hq); reflexivity).
    rewrite (trim_blank _ Hq); simpl; rewrite Hl.
    + now rewrite hd_filter.
    + intros c Hc; apply filter_In in Hc as [Hc _]; auto.
Qed.

Lemma blank_query_takes_the_first_contact_witness :
  forallb is_space "  " = true /\
  fst (resolveContact "  " (directory [david_till; davidson])) =
    Some david_till /\
  fst (resolvePhoneOrName "  " (directory [david_till; davidson])) =
    Some ("0700000001" : str).
Proof.
  assert (Hq : forallb is_space "  " = true) by (vm_compute; reflexivity).
  assert (Hn : forall c, In c (contacts (directory [david_till; davidson])) ->
                         name c <> []).
  { intros c [<- | [<- | []]]; discriminate. }
  split; [exact Hq|].
  exact (blank_query_takes_the_first_contact
           "  " (directory [david_till; davidson]) Hq Hn).
Defined.

(** X8: [clearVoiceContacts] empties the directory whatever the store
    held: afterwards no name resolves, a phone-shaped query still comes
    back normalised, and a contact saved next is, when the store encrypts,
    the only one listed. *)
Theorem cleared_directory_is_empty (st : Store) :
  contacts (clearVoiceContacts st) = [] /\
  (forall q, fst (resolveContact q (clearVoiceContacts st)) = None) /\
  (forall q,
      fst (resolvePhoneOrName q (clearVoiceContacts st)) =
      if isPhoneNumber (trim q) then Some (normalizePhone (trim q))
      else None) /\
  (forall c,
      encrypts st = true ->
      contacts (saveVoiceContact c (clearVoiceContacts st)) = [entry_of c]).
Proof.
  split; [reflexivity|]; split; [|split].
  - intros q; rewrite resolveContact_lookup; reflexivity.
  - intros q; destruct (isPhoneNumber (trim q)) eqn:E.
    + unfold resolvePhoneOrName; now rewrite E.
    + rewrite resolvePhoneOrName_by_name by exact E; reflexivity.
  - intros c He; rewrite contacts_saved; simpl; now rewrite He.
Qed.

(** X9: [initVoiceContacts] leaves [_cache] set, so that later reads no
    longer go to sessionStorage, unless the stored item it loads parses to
    [null]: the session item, the decrypted blob, or a plain item that is
    then persisted; a plain [null] is written to the session and leaves
    [_cache] null.  Contact lists that could already be read, from the
    cache or from the session, are the ones cached afterwards; and once
    [_cache] is set a second initialisation changes nothing, whatever
    localStorage holds by then. *)
Theorem init_once (local : LocalItem) (s : Storage) :
  (cached (initVoiceContacts local s) = Null ->
   cached s = Null /\
   (sessionParsed s = Some (Some Null) \/
    local = EncryptedItem true (Some (Some Null)) \/
    local = PlainItem (Some Null) /\ sealing s = true)) /\
  (cached s = Null -> sessionParsed s = None -> sealing s = true ->
   initVoiceContacts (PlainItem (Some Null)) s =
     {| cached := Null; sessionParsed := Some (Some Null);
        sealing := true |}) /\
  (forall st,
      cache st <> None \/ sessionItem st <> None ->
      initVoiceContacts local (stored st) =
        stored (with_cache (contacts st) st)) /\
  (cached (initVoiceContacts local s) <> Null ->
   forall local',
     initVoiceContacts local' (initVoiceContacts local s) =
     initVoiceContacts local s).
Proof.
  split; [|split; [|split]].
  - unfold initVoiceContacts, setCached.
    destruct (cached s) eqn:C; try (rewrite C; discriminate).
    destruct (sessionParsed s) as [[v|]|] eqn:S; simpl.
    + intros ->; auto.
    + destruct local as [|[] [[v|]|]|[v|]]; simpl; try discriminate.
      * intros ->; auto.
      * destruct (sealing s); simpl; [intros ->; auto | discriminate].
    + destruct local as [|[] [[v|]|]|[v|]]; simpl; try discriminate.
      * intros ->; auto.
      * destruct (sealing s); simpl; [intros ->; auto | discriminate].
  - intros C S E; unfold initVoiceContacts; now rewrite C, S, E.
  - intros st H; unfold initVoiceContacts, stored, with_cache, contacts,
                   getVoiceContacts, setCached; simpl.
    destruct (cache st) as [cs|] eqn:C; simpl; [reflexivity|].
    destruct (sessionItem st) as [cs|] eqn:S; simpl; [reflexivity|].
    destruct H; congruence.
  - intros H local'; unfold initVoiceContacts at 1.
    destruct (cached (initVoiceContacts local s)); congruence.
Qed.

(** ** The parser *)

Lemma drop_space_after_blank (sp t : str) :
  forallb is_space sp = true -> drop_space (sp ++ t) = drop_space t.
Proof.
  induction sp as [|x sp IH]; simpl; auto.
  rewrite andb_true_iff; intros [-> H]; auto.
Qed.

Lemma drop_space_before_blank (t sp : str) :
  forallb is_space sp = true ->
  drop_space (t ++ sp) =
  match drop_space t with [] => [] | _ :: _ => drop_space t ++ sp end.
Proof.
  intros H; induction t as [|x t IH]; simpl.
  - now apply drop_space_blank.
  - destruct (is_space x); auto.
Qed.

Lemma forallb_rev {A} (p : A -> bool) (l : list A) :
  forallb p (rev l) = forallb p l.
Proof.
  induction l as [|a l IH]; simpl; auto.
  rewrite forallb_app, IH; simpl; rewrite andb_true_r; apply andb_comm.
Qed.

Lemma trim_between_blanks (sp1 t sp2 : str) :
  forallb is_space sp1 = true -> forallb is_space sp2 = true ->
  trim (sp1 ++ t ++ sp2) = trim t.
Proof.
  intros H1 H2; unfold trim.
  rewrite drop_space_after_blank by exact H1.
  rewrite drop_space_before_blank by exact H2.
  destruct (drop_space t) as [|x r] eqn:E; [reflexivity|].
  rewrite rev_app_distr, drop_space_after_blank; auto.
  now rewrite forallb_rev.
Qed.

(** X10: white space around a transcript does not count, and a transcript
    of white space only, or empty, parses to nothing. *)
Theorem surrounding_space_is_ignored :
  (forall sp1 t sp2,
      forallb is_space sp1 = true -> forallb is_space sp2 = true ->
      parseIntent (sp1 ++ t ++ sp2) = parseIntent t) /\
  (forall t, forallb is_space t = true -> parseIntent t = None).
Proof.
  split.
  - intros sp1 t sp2 H1 H2; unfold parseIntent.
    now rewrite trim_between_blanks.
  - intros t H; unfold parseIntent; rewrite (trim_blank t H).
    vm_compute; reflexivity.
Qed.

Lemma template_number (n : nat) (r : regex) (t : str) (m : captures) :
  assigns n r = true ->
  captured n r = [plus is_digit] ->
  match_at_start r t = Some m ->
  digits (grp n m).
Proof.
  intros Ha Hc H.
  destruct (group_of_match _ _ _ _ Ha H)
    as (a & w0 & r0 & c0 & c1 & Hin & Hm & <-).
  rewrite Hc in Hin; destruct Hin as [<- | []].
  destruct Hm as (Hd & Hl & _); now apply digits_intro.
Qed.

(** X11: the business and account of a PAYBILL, the till of a TILL and the
    agent and store of a WITHDRAW that [parseIntent] returns are each one
    or more digits, kept as they were said. *)
Theorem parsed_numbers_are_digits (t : str) (i : ParsedIntent) :
  parseIntent t = Some i ->
  Forall digits (numbers_of i).
Proof.
  unfold parseIntent; intros H.
  destruct (match_at_start send_re (trim t)) as [m|] eqn:E1.
  { injection H as <-; constructor. }
  destruct (match_at_start pochi_re (trim t)) as [m|] eqn:E2.
  { injection H as <-; constructor. }
  destruct (match_at_start paybill_re (trim t)) as [m|] eqn:E3.
  { injection H as <-; simpl.
    apply Forall_cons; [|apply Forall_cons; [|apply Forall_nil]].
    - eapply (template_number 1); eauto; reflexivity.
    - eapply (template_number 2); eauto; reflexivity. }
  destruct (match_at_start till_re (trim t)) as [m|] eqn:E4.
  { injection H as <-; simpl.
    apply Forall_cons; [|apply Forall_nil].
    eapply (template_number 1); eauto; reflexivity. }
  destruct (match_at_start withdraw_re (trim t)) as [m|] eqn:E5.
  { injection H as <-; simpl.
    apply Forall_cons; [|apply Forall_cons; [|apply Forall_nil]].
    - eapply (template_number 2); eauto; reflexivity.
    - eapply (template_number 3); eauto; reflexivity. }
  destruct (match_at_start named_re (trim t)) as [m|] eqn:E6; [|discriminate].
  injection H as <-; constructor.
Qed.

Lemma parsed_numbers_are_digits_witness :
  parseIntent "withdraw 1000 agent 123456 store 001" =
    Some (WITHDRAW "1000" "123456" "001") /\
  Forall digits [("123456" : str); ("001" : str)].
Proof.
  assert (H : parseIntent "withdraw 1000 agent 123456 store 001" =
              Some (WITHDRAW "1000" "123456" "001"))
    by (vm_compute; reflexivity).
  split; [exact H|].
  exact (parsed_numbers_are_digits _ _ H).
Defined.

Lemma alpha_not_space (c : ascii) : is_alpha c = true -> is_space c = false.
Proof.
  unfold is_alpha, is_upper, is_lower, is_space, in_range; intros H.
  apply orb_true_iff in H as [H | H];
    apply andb_true_iff in H as [H1 H2]; apply Nat.leb_le in H1, H2;
    rewrite !orb_false_iff, andb_false_iff, !Nat.leb_gt, !Nat.eqb_neq; lia.
Qed.

Lemma drop_space_to_last (x : ascii) (a : str) :
  is_space x = false ->
  exists l,
    drop_space (a ++ [x]) = l ++ [x] /\
    forall p, forallb p a = true -> forallb p l = true.
Proof.
  intros Hx; induction a as [|y a IH]; simpl.
  - rewrite Hx; exists []; auto.
  - destruct (is_space y).
    + destruct IH as (l & E & Hl); exists l; split; auto.
      intros p Hp; apply andb_true_iff in Hp as [_ Hp]; auto.
    + exists (y :: a); auto.
Qed.

Lemma trim_keeps_head (x : ascii) (w : str) :
  is_space x = false ->
  exists r,
    trim (x :: w) = x :: r /\
    forall p, forallb p w = true -> forallb p r = true.
Proof.
  intros Hx; unfold trim; simpl drop_space; rewrite Hx.
  simpl rev.
  destruct (drop_space_to_last x (rev w) Hx) as (l & -> & Hl).
  exists (rev l); rewrite rev_app_distr; split; [reflexivity|].
  intros p Hp; rewrite forallb_rev; apply Hl; now rewrite forallb_rev.
Qed.

(** X12: the contact name of a NAMED_PAYMENT that [parseIntent] returns
    begins with a letter and goes on with letters, digits and white space
    only: a named payment never names a contact by a number. *)
Theorem named_contact_begins_with_a_letter (t a n : str) :
  parseIntent t = Some (NAMED_PAYMENT a n) ->
  exists x r,
    n = x :: r /\ is_alpha x = true /\ forallb name_char r = true.
Proof.
  unfold parseIntent; intros H.
  destruct (match_at_start send_re (trim t)); [discriminate|].
  destruct (match_at_start pochi_re (trim t)); [discriminate|].
  destruct (match_at_start paybill_re (trim t)); [discriminate|].
  destruct (match_at_start till_re (trim t)); [discriminate|].
  destruct (match_at_start withdraw_re (trim t)); [discriminate|].
  destruct (match_at_start named_re (trim t)) as [m|] eqn:E; [|discriminate].
  injection H as _ <-.
  destruct (group_of_match 1 named_re _ _ eq_refl E)
    as (b & w0 & r0 & c0 & c1 & Hin & Hm & <-).
  destruct Hin as [<- | []].
  destruct Hm as (w1 & w2 & c2 & -> & (x & -> & Hx & _) & (Hw & _)).
  destruct (trim_keeps_head x w2 (alpha_not_space _ Hx)) as (r & E' & Hr).
  exists x, r; simpl; rewrite E'; auto.
Qed.

Lemma named_contact_begins_with_a_letter_witness :
  parseIntent "pay mama mboga 250" =
    Some (NAMED_PAYMENT "250" "mama mboga") /\
  exists x r,
    ("mama mboga" : str) = x :: r /\ is_alpha x = true /\
    forallb name_char r = true.
Proof.
  assert (H : parseIntent "pay mama mboga 250" =
              Some (NAMED_PAYMENT "250" "mama mboga"))
    by (vm_compute; reflexivity).
  split; [exact H|].
  exact (named_contact_begins_with_a_letter _ _ _ H).
Defined.

Lemma withdraw_keyword w rest cs cs' :
  matches withdraw_re w rest cs cs' -> exists tl, squash w = "withdraw" ++ tl.
Proof.
  unfold withdraw_re; cbn [matches].
  intros (w1 & w2 & c1 & -> & H1 & _).
  rewrite squash_app, (squash_lit _ _ _ _ _ H1); eexists; reflexivity.
Qed.

Lemma keyword4_of_match (r : regex) (s : str) (k : str) :
  (forall w rest cs cs',
      matches r w rest cs cs' -> exists tl, squash w = k ++ tl) ->
  4 <= length k ->
  test r s = true -> keyword4 s = firstn 4 k.
Proof.
  intros Hk Hl H; apply test_iff_matches in H as (w & rest & m & -> & Hm).
  destruct (Hk _ _ _ _ Hm) as (tl & E).
  unfold keyword4; rewrite squash_app, E, <- app_assoc.
  rewrite firstn_app.
  replace (4 - length k) with 0 by lia; simpl; now rewrite app_nil_r.
Qed.

Lemma till_keyword4 (s : str) :
  test till_re s = true ->
  keyword4 s = ("payt" : str) \/ keyword4 s = ("buyg" : str).
Proof.
  intros H; apply test_iff_matches in H as (w & rest & m & -> & Hm).
  destruct (till_keyword _ _ _ _ Hm) as (tl & [E | E]);
    unfold keyword4; rewrite squash_app, E; [left | right]; reflexivity.
Qed.

(** X13: of the five templates tried before the named payment, at most
    one matches a given transcript, so that the order in which
    [parseIntent] tries them decides nothing. *)
Theorem specific_templates_are_exclusive (s : str) :
  length (filter (fun r => test r s) specific_templates) <= 1.
Proof.
  pose proof (keyword4_of_match send_re s "send" send_keyword) as K1.
  pose proof (keyword4_of_match pochi_re s "pochi" pochi_keyword) as K2.
  pose proof (keyword4_of_match paybill_re s "paybill" paybill_keyword) as K3.
  pose proof (till_keyword4 s) as K4.
  pose proof (keyword4_of_match withdraw_re s "withdraw" withdraw_keyword)
    as K5.
  unfold specific_templates; cbn [filter].
  destruct (test send_re s); [specialize (K1 ltac:(simpl; lia) eq_refl)|];
    destruct (test pochi_re s);
    [specialize (K2 ltac:(simpl; lia) eq_refl)| |
     specialize (K2 ltac:(simpl; lia) eq_refl)|];
    destruct (test paybill_re s);
    try specialize (K3 ltac:(simpl; lia) eq_refl);
    destruct (test till_re s); try specialize (K4 eq_refl);
    destruct (test withdraw_re s);
    try specialize (K5 ltac:(simpl; lia) eq_refl);
    cbn [length]; try lia; exfalso;
    try destruct K4 as [K4 | K4];
    match goal with
    | H1 : keyword4 s = ?a, H2 : keyword4 s = ?b |- _ =>
        let E := fresh in
        assert (E : a = b) by (rewrite <- H1; exact H2);
        vm_compute in E; discriminate E
    end.
Qed.

(** ** The hook, further *)

Lemma heard_reply_unconfirmed (o : Capture) (i : ParsedIntent) (raw : str)
      (w : World) :
  (forall resp, o = Heard resp -> affirmative resp = false) ->
  quiet w (heard_reply o i raw w).
Proof.
  intros H; unfold heard_reply; destruct o as [resp | msg].
  - rewrite affirm_re_affirmative, (H resp eq_refl).
    apply (quiet_step _ _ [Speak "Okay, no problem. Cancelled."; Dismiss]);
      simpl; rewrite <- ?app_assoc; reflexivity.
  - apply (quiet_step _ _
             [Speak "I couldn't hear you. Tap yes or no on screen."]);
      reflexivity.
Qed.

(** X14: nothing is executed without a confirming reply.  In every
    session whose reply is not captured or does not confirm, however far
    the session gets, the directory lists at the end the contacts it
    listed at the start, no contact was saved and the submission callback
    was not called. *)
Theorem unconfirmed_session_executes_nothing
        (isSupported : bool) (sc : Script) (w : World) :
  (forall resp, reply sc = Heard resp -> affirmative resp = false) ->
  quiet w (outcome isSupported sc w).
Proof.
  intros H; unfold outcome, session.
  destruct (start isSupported w) as [w1 waiting] eqn:E1.
  destruct (start_inv _ _ _ _ E1) as (Q1 & _).
  destruct waiting; [|exact Q1].
  destruct (heard_command (command sc) w1) as [w2 k] eqn:E2.
  destruct (heard_command_inv _ _ _ _ E2) as (Q2 & _).
  destruct k as [[i raw]|]; cbn [last].
  - eapply quiet_trans; [exact Q1|]. eapply quiet_trans; [exact Q2|].
    eapply quiet_trans; [|apply heard_reply_unconfirmed; exact H].
    apply (quiet_step _ _ []); simpl; auto. now rewrite app_nil_r.
  - eapply quiet_trans; eauto.
Qed.

Lemma unconfirmed_session_executes_nothing_witness :
  contacts (store (outcome true (says "send 500 to David" "maybe later")
                           (fresh [david]))) = [david].
Proof.
  assert (Hn : affirmative "maybe later" = false)
    by (vm_compute; reflexivity).
  assert (H : forall resp,
             reply (says "send 500 to David" "maybe later") = Heard resp ->
             affirmative resp = false).
  { intros resp [= <-]; exact Hn. }
  exact (proj1 (unconfirmed_session_executes_nothing
                  true (says "send 500 to David" "maybe later")
                  (fresh [david]) H)).
Defined.

Lemma submitted_app (a b : list Effect) :
  submitted (a ++ b) = submitted a ++ submitted b.
Proof. apply filter_app. Qed.

Lemma submitted_quiet (done : list Effect) :
  forallb (fun e => negb (executes e)) done = true -> submitted done = [].
Proof.
  unfold submitted; induction done as [|e l IH]; simpl; auto.
  rewrite andb_true_iff; intros [He Hl].
  destruct e; simpl in *; auto; discriminate.
Qed.

Lemma submitted_saves (saved : list Effect) :
  (forall e, In e saved -> exists c, e = SaveVoiceContact c) ->
  submitted saved = [].
Proof.
  unfold submitted; induction saved as [|e l IH]; simpl; intros H; auto.
  destruct (H e (or_introl eq_refl)) as (c & ->); simpl; auto.
Qed.

(** X15: a session calls the submission callback at most once.  What a
    session adds to the calls made so far holds no submission, or exactly
    one, of a concrete intent, and then as its last call. *)
Theorem session_submits_at_most_once
        (isSupported : bool) (sc : Script) (w : World) :
  exists done,
    effects (outcome isSupported sc w) = effects w ++ done /\
    (submitted done = [] \/
     exists i before,
       concrete i = true /\ done = before ++ [Submit i] /\
       submitted before = []).
Proof.
  unfold outcome, session.
  destruct (start isSupported w) as [w1 waiting] eqn:E1.
  destruct (start_inv _ _ _ _ E1) as ((_ & d1 & D1 & F1) & _).
  destruct waiting;
    [|exists d1; split; [exact D1 | left; now apply submitted_quiet]].
  destruct (heard_command (command sc) w1) as [w2 k] eqn:E2.
  destruct (heard_command_inv _ _ _ _ E2) as ((_ & d2 & D2 & F2) & K).
  pose proof (submitted_quiet _ F1) as S1.
  pose proof (submitted_quiet _ F2) as S2.
  destruct k as [[i raw]|]; cbn [last].
  2:{ exists (d1 ++ d2); rewrite D2, D1, app_assoc; split; auto.
      left; now rewrite submitted_app, S1, S2. }
  destruct K as (_ & Hi & _).
  unfold heard_reply; destruct (reply sc) as [resp | msg].
  - destruct (test affirm_re (trim resp)).
    + destruct (executeConfirm_inv i raw (spoken w2)) as (saved & E & Hs & _).
      exists (d1 ++ d2 ++ saved ++
              [CancelSpeech; Speak "Perfect, sending now via remote push.";
               Dismiss; Submit i]).
      split.
      * rewrite E; simpl; rewrite D2, D1, <- !app_assoc; reflexivity.
      * right; exists i.
        exists (d1 ++ d2 ++ saved ++
                [CancelSpeech;
                 Speak "Perfect, sending now via remote push."; Dismiss]).
        split; [exact Hi|]; split.
        -- rewrite <- !app_assoc; reflexivity.
        -- rewrite !submitted_app, S1, S2, (submitted_saves _ Hs).
           reflexivity.
    + exists (d1 ++ d2 ++ [Speak "Okay, no problem. Cancelled."; Dismiss]).
      split.
      * simpl; rewrite D2, D1, <- !app_assoc; reflexivity.
      * left; rewrite !submitted_app, S1, S2; reflexivity.
  - exists (d1 ++ d2 ++
            [Speak "I couldn't hear you. Tap yes or no on screen."]).
    split.
    + simpl; rewrite D2, D1, <- !app_assoc; reflexivity.
    + left; rewrite !submitted_app, S1, S2; reflexivity.
Qed.

(** X16: taps are safe.  A second tap on confirm does nothing more than
    the first, so a double tap submits once; and a tap on confirm right
    after [start] or after [cancel] does nothing, since both drop the
    pending intent. *)
Theorem confirm_only_once (w : World) :
  confirm (confirm w) = confirm w /\
  confirm (fst (start true w)) = fst (start true w) /\
  confirm (cancel w) = cancel w.
Proof.
  split; [|split].
  - apply confirm_nothing_pending.
    unfold confirm; destruct (pendingIntentRef w) as [i|] eqn:R; [|exact R].
    destruct (executeConfirm_inv i (transcriptRef w) (emit CancelSpeech w))
      as (_ & _ & _ & _ & _ & H); exact H.
  - apply confirm_nothing_pending; reflexivity.
  - apply confirm_nothing_pending; reflexivity.
Qed.

(** ** Trimming *)

Lemma drop_space_split (s : str) :
  exists sp, forallb is_space sp = true /\ s = sp ++ drop_space s.
Proof.
  induction s as [|x s IH]; simpl; [exists []; auto|].
  destruct (is_space x) eqn:E; [|exists []; auto].
  destruct IH as (sp & Hsp & Hs); exists (x :: sp); simpl.
  rewrite E, Hsp; split; auto. now rewrite <- Hs.
Qed.

Lemma headed_drop_space (s : str) : headed (drop_space s).
Proof.
  induction s as [|x s IH]; simpl; auto.
  destruct (is_space x) eqn:E; simpl; auto.
Qed.

Lemma drop_space_headed (s : str) : headed s -> drop_space s = s.
Proof. destruct s as [|x s]; simpl; auto. now intros ->. Qed.

Lemma headed_trim (s : str) : headed (trim s).
Proof.
  unfold trim.
  pose proof (headed_drop_space s) as Ha.
  destruct (drop_space_split (rev (drop_space s))) as (sp & _ & E).
  apply (f_equal (@rev ascii)) in E.
  rewrite rev_involutive, rev_app_distr in E.
  destruct (rev (drop_space (rev (drop_space s)))) as [|x r]; simpl; auto.
  rewrite E in Ha; exact Ha.
Qed.

Lemma trim_idem (s : str) : trim (trim s) = trim s.
Proof.
  pose proof (headed_trim s) as H; apply drop_space_headed in H.
  unfold trim at 1; rewrite H.
  unfold trim; rewrite rev_involutive.
  now rewrite (drop_space_headed _ (headed_drop_space _)).
Qed.

Lemma drop_space_forallb (p : ascii -> bool) (s : str) :
  forallb p s = true -> forallb p (drop_space s) = true.
Proof.
  induction s as [|x s IH]; simpl; auto.
  rewrite andb_true_iff; intros [Hx Hs].
  destruct (is_space x); simpl; auto. now rewrite Hx, Hs.
Qed.

Lemma trim_forallb (p : ascii -> bool) (s : str) :
  forallb p s = true -> forallb p (trim s) = true.
Proof.
  intros H; unfold trim; rewrite forallb_rev.
  apply drop_space_forallb; rewrite forallb_rev.
  now apply drop_space_forallb.
Qed.

(** ** Errors *)

Lemma heard_command_error (o : Capture) (w w' : World) :
  heard_command o w = (w', None) ->
  effects w' = effects w ++ [Speak (errorMessage w')].
Proof.
  unfold heard_command; intros H.
  destruct o as [raw | msg]; [|injection H as <-; reflexivity].
  destruct (parseIntent raw) as [[a p|a p|a b acc|a t|a ag sto|a n]|];
    try discriminate.
  - destruct (resolve_phone p _) as [[p'|] w1] eqn:E; [discriminate|].
    destruct (resolve_phone_inv _ _ _ _ E) as (st & -> & _).
    injection H as <-; reflexivity.
  - destruct (resolve_phone p _) as [[p'|] w1] eqn:E; [discriminate|].
    destruct (resolve_phone_inv _ _ _ _ E) as (st & -> & _).
    injection H as <-; reflexivity.
  - destruct (resolveContact n _) as [c st].
    destruct (rewrite_named a n c); [discriminate|].
    injection H as <-; reflexivity.
  - injection H as <-; reflexivity.
Qed.

(** X17: an error is spoken.  A session that ends in [error] has spoken
    its error message as its last call; and when speech capture is
    supported it leaves no intent pending, so that a tap on confirm does
    nothing. *)
Theorem session_error_is_spoken
        (isSupported : bool) (sc : Script) (w : World) :
  state (outcome isSupported sc w) = error ->
  (exists before,
      effects (outcome isSupported sc w) =
      before ++ [Speak (errorMessage (outcome isSupported sc w))]) /\
  (isSupported = true ->
   pendingIntent (outcome isSupported sc w) = None /\
   confirm (outcome isSupported sc w) = outcome isSupported sc w).
Proof.
  unfold outcome, session.
  destruct (start isSupported w) as [w1 waiting] eqn:E1.
  destruct (start_inv _ _ _ _ E1) as (_ & _ & K1).
  destruct waiting.
  - destruct K1 as (_ & P1 & R1).
    destruct (heard_command (command sc) w1) as [w2 k] eqn:E2.
    destruct (heard_command_inv _ _ _ _ E2) as (_ & K2).
    destruct k as [[i raw]|]; cbn [last].
    + intros Hs; exfalso; revert Hs.
      unfold heard_reply; destruct (reply sc) as [resp | msg].
      * destruct (test affirm_re (trim resp)); [|discriminate].
        destruct (executeConfirm_inv i raw (spoken w2))
          as (_ & _ & _ & -> & _); discriminate.
      * discriminate.
    + intros _; destruct K2 as (_ & P2 & R2); split.
      * exists (effects w1); exact (heard_command_error _ _ _ E2).
      * intros _; split; [congruence|].
        apply confirm_nothing_pending; congruence.
  - unfold start in E1; destruct isSupported; [discriminate|].
    injection E1 as <-; intros _; split; [|discriminate].
    exists (effects w); reflexivity.
Qed.

Lemma session_error_is_spoken_witness :
  state (outcome true (says "what time is it" "yes") (fresh [])) = error /\
  pendingIntent (outcome true (says "what time is it" "yes") (fresh [])) =
    None.
Proof.
  assert (H : state (outcome true (says "what time is it" "yes")
                             (fresh [])) = error)
    by (vm_compute; reflexivity).
  split; [exact H|].
  exact (proj1 (proj2 (session_error_is_spoken
                         true (says "what time is it" "yes") (fresh []) H)
                      eq_refl)).
Defined.

(** ** Learning contacts *)

Lemma search_sound (r : regex) (s : str) (m : captures) :
  search r s = Some m ->
  exists before s', s = before ++ s' /\ match_at_start r s' = Some m.
Proof.
  induction s as [|x s IH]; simpl.
  - destruct (match_at_start r []) eqn:E; [|discriminate].
    intros [= <-]; exists [], []; auto.
  - destruct (match_at_start r (x :: s)) eqn:E.
    + intros [= <-]; exists [], (x :: s); auto.
    + intros H; destruct (IH H) as (b & s' & -> & Hm).
      exists (x :: b), s'; auto.
Qed.

Lemma trailing_name_shape (raw n : str) :
  trailing_name raw = Some n ->
  trim n = n /\ forallb (fun c => is_alpha c || is_space c) n = true.
Proof.
  unfold trailing_name.
  destruct (search name_re raw) as [m|] eqn:E; [|discriminate].
  intros [= <-]; split; [apply trim_idem|].
  apply search_sound in E as (b & s' & _ & E).
  destruct (group_of_match 1 name_re _ _ eq_refl E)
    as (a & w0 & r0 & c0 & c1 & Hin & Hm & <-).
  destruct Hin as [<- | []].
  destruct Hm as (Hw & _); now apply trim_forallb.
Qed.

Lemma letter_or_space_not_digit (c : ascii) :
  is_alpha c || is_space c = true -> is_digit c = false.
Proof.
  unfold is_alpha, is_upper, is_lower, is_space, is_digit, in_range.
  rewrite !orb_true_iff, !andb_true_iff, !Nat.leb_le, !Nat.eqb_eq.
  rewrite andb_false_iff, !Nat.leb_gt; lia.
Qed.

Lemma beginSave_spec (c : VoiceContact) (st : Store) :
  beginSave c st =
  (upsert (entry_of c) (contacts st), snd (getVoiceContacts st)).
Proof.
  unfold beginSave, contacts; now destruct (getVoiceContacts st).
Qed.

Lemma contacts_read (st : Store) :
  contacts (snd (getVoiceContacts st)) = contacts st /\
  encrypts (snd (getVoiceContacts st)) = encrypts st.
Proof.
  unfold contacts, getVoiceContacts.
  destruct (cache st) as [cs|] eqn:C; simpl; [now rewrite C|].
  destruct (sessionItem st) as [cs|] eqn:S; simpl; auto.
  now rewrite C, S.
Qed.

Lemma contacts_persisted (cs : list VoiceContact) (st : Store) :
  contacts (persistContacts cs st) =
  if encrypts st then cs else contacts st.
Proof. unfold persistContacts; now destruct (encrypts st). Qed.

(** What [executeConfirm] does to the contact module: the store it leaves
    and the saves under way. *)
Lemma executeConfirm_save (i : ParsedIntent) (raw : str) (w : World) :
  match learning i raw with
  | Some c =>
      store (executeConfirm i raw w) = snd (getVoiceContacts (store w)) /\
      saving (executeConfirm i raw w) =
        saving w ++ [upsert (entry_of c) (contacts (store w))]
  | None =>
      store (executeConfirm i raw w) = store w /\
      saving (executeConfirm i raw w) = saving w
  end.
Proof.
  unfold learning, executeConfirm; fold (trailing_name raw).
  destruct (trailing_name raw) as [[|x n]|] eqn:E;
    destruct (has_phone i) as [p|]; try (split; reflexivity).
  destruct (trailing_name_shape _ _ E) as (_ & Hs).
  simpl in Hs; apply andb_true_iff in Hs as [Hx _].
  unfold test, match_at_start; simpl.
  rewrite (letter_or_space_not_digit _ Hx); simpl.
  fold (learnt (x :: n) p); rewrite beginSave_spec; split; reflexivity.
Qed.

(** X18: executing leaves the contact module alone unless the intent is a
    SEND_MONEY or a POCHI and the transcript ends in "to" and a name made
    of letters: for a PAYBILL, a TILL or a WITHDRAW, and for a transcript
    without such an ending, the store after [executeConfirm] is the store
    before and no save has been started. *)
Theorem execution_writes_only_learnt_names
        (i : ParsedIntent) (raw : str) (w : World) :
  has_phone i = None \/ trailing_name raw = None \/
  trailing_name raw = Some [] ->
  store (executeConfirm i raw w) = store w /\
  saving (executeConfirm i raw w) = saving w.
Proof.
  intros H; pose proof (executeConfirm_save i raw w) as E.
  assert (learning i raw = None) as R.
  { unfold learning; destruct H as [H | [H | H]]; rewrite H; auto.
    destruct (trailing_name raw) as [[|]|]; reflexivity. }
  now rewrite R in E.
Qed.

Lemma execution_writes_only_learnt_names_witness :
  store (executeConfirm (TILL "500" "522533") "pay till 522533 500"
                        (fresh [david])) = store (fresh [david]) /\
  saving (executeConfirm (TILL "500" "522533") "pay till 522533 500"
                         (fresh [david])) = saving (fresh [david]).
Proof.
  apply (execution_writes_only_learnt_names
           (TILL "500" "522533") "pay till 522533 500" (fresh [david])).
  left; reflexivity.
Defined.

Lemma lookup_saved (c : VoiceContact) (cs : list VoiceContact) :
  lookup (toLowerCase (name c)) (upsert (entry_of c) cs) = Some (entry_of c).
Proof.
  pose proof (find_upsert (fun _ => true) (entry_of c) cs eq_refl) as H.
  unfold lookup; cbn [andb name entry_of] in H.
  change (fun c0 : VoiceContact => exact_match (toLowerCase (name c)) c0)
    with (exact_match (toLowerCase (name c))) in H.
  now rewrite H.
Qed.

Lemma resolveContact_saved (c : VoiceContact) (st : Store) :
  encrypts st = true ->
  trim (name c) = name c ->
  fst (resolveContact (name c) (saveVoiceContact c st)) = Some (entry_of c).
Proof.
  intros He Ht.
  rewrite resolveContact_lookup, contacts_saved, He, Ht.
  apply lookup_saved.
Qed.

Lemma saved_next (u : list VoiceContact) (w : World)
      (q : list (list VoiceContact)) :
  saving w = q ++ [u] ->
  store (endSave (length q) w) = persistContacts u (store w) /\
  saving (endSave (length q) w) = q.
Proof.
  intros E; unfold endSave; rewrite E.
  rewrite nth_error_app2, Nat.sub_diag by lia; cbn [nth_error].
  split; [reflexivity|].
  change (firstn (length q) (q ++ [u]) ++ skipn (S (length q)) (q ++ [u]) =
          q).
  rewrite firstn_app, Nat.sub_diag, firstn_all, app_nil_r.
  rewrite skipn_all2 by (rewrite length_app; simpl; lia).
  apply app_nil_r.
Qed.

(** X19: executing learns the name, but not at once.  When a SEND_MONEY or
    POCHI is executed on a transcript that ends in "to" and a name,
    [executeConfirm] returns with the directory as it was and one more
    save under way; once that save is over, with nothing in between and
    the store encrypting, the name resolves to a mobile contact with the
    intent's phone, normalised, whatever the directory held under that
    name before. *)
Theorem execution_learns_the_name
        (i : ParsedIntent) (raw n p : str) (w : World) :
  trailing_name raw = Some n -> n <> [] -> has_phone i = Some p ->
  encrypts (store w) = true ->
  contacts (store (executeConfirm i raw w)) = contacts (store w) /\
  saving (executeConfirm i raw w) =
    saving w ++ [upsert (entry_of (learnt n p)) (contacts (store w))] /\
  fst (resolveContact n
         (store (endSave (length (saving w)) (executeConfirm i raw w)))) =
    Some {| name := n; type := Some mobile; phone := normalizePhone p;
            accountNumber := None |}.
Proof.
  intros Hn Hne Hp He.
  pose proof (executeConfirm_save i raw w) as E.
  unfold learning in E; rewrite Hn, Hp in E.
  destruct n as [|x n]; [congruence|].
  destruct E as (Es & Eq).
  destruct (contacts_read (store w)) as (Rc & Re).
  split; [now rewrite Es|]; split; [exact Eq|].
  destruct (saved_next _ _ _ Eq) as (Sv & _).
  rewrite resolveContact_lookup, Sv, contacts_persisted, Es, Re, He.
  destruct (trailing_name_shape _ _ Hn) as (Ht & _).
  rewrite Ht; exact (lookup_saved (learnt (x :: n) p) _).
Qed.

Lemma execution_learns_the_name_witness :
  trailing_name "send 500 to Dav" = Some ("Dav" : str) /\
  contacts (store (executeConfirm (SEND_MONEY "500" "0712345678")
                                  "send 500 to Dav" (fresh [david]))) =
    [david] /\
  fst (resolveContact "Dav"
         (store (endSave 0 (executeConfirm (SEND_MONEY "500" "0712345678")
                                         "send 500 to Dav"
                                         (fresh [david]))))) =
    Some {| name := "Dav"; type := Some mobile;
            phone := normalizePhone "0712345678"; accountNumber := None |}.
Proof.
  assert (Hn : trailing_name "send 500 to Dav" = Some ("Dav" : str))
    by (vm_compute; reflexivity).
  assert (Hne : ("Dav" : str) <> []) by discriminate.
  assert (He : encrypts (store (fresh [david])) = true) by reflexivity.
  split; [exact Hn|].
  destruct (execution_learns_the_name
              (SEND_MONEY "500" "0712345678") "send 500 to Dav" "Dav"
              "0712345678" (fresh [david]) Hn Hne eq_refl He)
    as (C & _ & R).
  split; [exact C | exact R].
Defined.

(** X27: two saves under way at once lose one.  When two executions each
    learn a name before the save of either is over, both saves were built
    from the directory as it was before the first; when they are over,
    in the order they were started, the directory is the second save's
    list: the contact the first one learnt is not in it, unless it was in
    the directory before or has the second one's name. *)
Theorem overlapping_saves_lose_the_first
        (i1 i2 : ParsedIntent) (raw1 raw2 n1 n2 p1 p2 : str) (w : World) :
  trailing_name raw1 = Some n1 -> n1 <> [] -> has_phone i1 = Some p1 ->
  trailing_name raw2 = Some n2 -> n2 <> [] -> has_phone i2 = Some p2 ->
  encrypts (store w) = true -> saving w = [] ->
  contacts
    (store (endSave 0 (endSave 0 (executeConfirm i2 raw2
                                (executeConfirm i1 raw1 w))))) =
    upsert (entry_of (learnt n2 p2)) (contacts (store w)).
Proof.
  intros Hn1 Hne1 Hp1 Hn2 Hne2 Hp2 He Hq.
  set (w1 := executeConfirm i1 raw1 w).
  pose proof (executeConfirm_save i1 raw1 w) as E1; fold w1 in E1.
  pose proof (executeConfirm_save i2 raw2 w1) as E2.
  unfold learning in E1, E2; rewrite Hn1, Hp1 in E1; rewrite Hn2, Hp2 in E2.
  destruct n1 as [|x1 n1]; [congruence|].
  destruct n2 as [|x2 n2]; [congruence|].
  destruct E1 as (Es1 & Eq1); destruct E2 as (Es2 & Eq2).
  destruct (contacts_read (store w)) as (Rc & Re).
  destruct (contacts_read (store w1)) as (_ & Re1).
  assert (contacts (store w1) = contacts (store w)) as C1
    by (rewrite Es1; exact Rc).
  assert (encrypts (store w1) = true) as N1 by (rewrite Es1, Re; exact He).
  rewrite C1, Eq1, Hq in Eq2; cbn [app] in Eq2.
  set (w2 := executeConfirm i2 raw2 w1) in *.
  set (u1 := upsert (entry_of (learnt (x1 :: n1) p1)) (contacts (store w)))
    in *.
  set (u2 := upsert (entry_of (learnt (x2 :: n2) p2)) (contacts (store w)))
    in *.
  assert (store (endSave 0 w2) = persistContacts u1 (store w2) /\
          saving (endSave 0 w2) = [u2]) as (S1 & Q1).
  { unfold endSave; rewrite Eq2; cbn [nth_error]; split; reflexivity. }
  assert (store (endSave 0 (endSave 0 w2)) =
          persistContacts u2 (store (endSave 0 w2))) as S2.
  { unfold endSave at 1; rewrite Q1; reflexivity. }
  rewrite S2, contacts_persisted, S1.
  unfold persistContacts; rewrite Es2, Re1, N1; reflexivity.
Qed.

Lemma overlapping_saves_lose_the_first_witness :
  contacts
    (store (endSave 0 (endSave 0
       (executeConfirm (SEND_MONEY "200" "0700000002") "send 200 to Mar"
          (executeConfirm (SEND_MONEY "500" "0712345678") "send 500 to Dav"
             (fresh [david])))))) =
    [david;
     {| name := "Mar"; type := Some mobile; phone := "0700000002";
        accountNumber := None |}].
Proof.
  assert (H1 : trailing_name "send 500 to Dav" = Some ("Dav" : str))
    by (vm_compute; reflexivity).
  assert (H2 : trailing_name "send 200 to Mar" = Some ("Mar" : str))
    by (vm_compute; reflexivity).
  assert (N1 : ("Dav" : str) <> []) by discriminate.
  assert (N2 : ("Mar" : str) <> []) by discriminate.
  assert (He : encrypts (store (fresh [david])) = true) by reflexivity.
  assert (Hq : saving (fresh [david]) = []) by reflexivity.
  rewrite (overlapping_saves_lose_the_first
             (SEND_MONEY "500" "0712345678") (SEND_MONEY "200" "0700000002")
             "send 500 to Dav" "send 200 to Mar" "Dav" "Mar"
             "0712345678" "0700000002" (fresh [david])
             H1 N1 eq_refl H2 N2 eq_refl He Hq).
  vm_compute; reflexivity.
Defined.

(** ** Targets *)

Lemma parsed_phone_shape (raw p : str) (i : ParsedIntent) :
  parseIntent raw = Some i -> has_phone i = Some p ->
  trim p = p /\ headed p /\
  forallb (fun c => is_word c || is_space c) p = true.
Proof.
  unfold parseIntent; intros H Hp.
  destruct (match_at_start send_re (trim raw)) as [m|] eqn:E1.
  { injection H as <-; injection Hp as <-.
    destruct (group_of_match 2 send_re _ _ eq_refl E1)
      as (a & w0 & r0 & c0 & c1 & Hin & Hm & <-).
    destruct Hin as [<- | []]; destruct Hm as (Hw & _).
    split; [apply trim_idem|]; split; [apply headed_trim|].
    now apply trim_forallb. }
  destruct (match_at_start pochi_re (trim raw)) as [m|] eqn:E2.
  { injection H as <-; injection Hp as <-.
    destruct (group_of_match 2 pochi_re _ _ eq_refl E2)
      as (a & w0 & r0 & c0 & c1 & Hin & Hm & <-).
    destruct Hin as [<- | []]; destruct Hm as (Hw & _).
    split; [apply trim_idem|]; split; [apply headed_trim|].
    now apply trim_forallb. }
  destruct (match_at_start paybill_re (trim raw));
    [injection H as <-; discriminate|].
  destruct (match_at_start till_re (trim raw));
    [injection H as <-; discriminate|].
  destruct (match_at_start withdraw_re (trim raw));
    [injection H as <-; discriminate|].
  destruct (match_at_start named_re (trim raw));
    [injection H as <-; discriminate | discriminate].
Qed.

Lemma heard_command_target (raw a p : str) (i : ParsedIntent) (w : World) :
  parseIntent raw = Some i -> phone_target a p i ->
  heard_command (Heard raw) w =
  let w0 := setState processing
              (setTranscriptRef raw (setTranscript raw w)) in
  match resolve_phone p w0 with
  | (Some p', w1) => (read_back (with_phone i p') w1,
                      Some (with_phone i p', raw))
  | (None, w1) => (setError (not_found p) w1, None)
  end.
Proof.
  intros H [-> | ->]; unfold heard_command; rewrite H; reflexivity.
Qed.

(** X20: a target the directory does not know.  When the phone-or-name of
    a SEND_MONEY or POCHI does not resolve, the session goes on with the
    target as it was said if that begins with a digit once spaces, dashes,
    brackets and plus signs are removed, and ends in [error] with the
    not-found message otherwise. *)
Theorem unknown_target
        (raw a p : str) (i : ParsedIntent) (w : World) :
  parseIntent raw = Some i -> phone_target a p i ->
  truthy (fst (resolvePhoneOrName p (store w))) = false ->
  let dialled :=
    test (Cls is_digit) (strip (fun c => separator c || is_char "+" c) p) in
  let w' := fst (heard_command (Heard raw) w) in
  snd (heard_command (Heard raw) w) =
    (if dialled then Some (i, raw) else None) /\
  (dialled = false ->
   state w' = error /\ errorMessage w' = not_found p).
Proof.
  intros H Ht Hr dialled w'; unfold w'.
  rewrite (heard_command_target raw a p i w H Ht); cbv zeta.
  unfold resolve_phone; cbn [store setState setTranscriptRef setTranscript].
  destruct (resolvePhoneOrName p (store w)) as [res st]; simpl in Hr.
  rewrite Hr; fold dialled.
  destruct dialled; simpl.
  - split; [|discriminate].
    destruct Ht as [-> | ->]; reflexivity.
  - split; auto.
Qed.

Lemma unknown_target_witness :
  parseIntent "send 500 to 2pac" = Some (SEND_MONEY "500" "2pac") /\
  snd (heard_command (Heard "send 500 to 2pac") (fresh [david])) =
    Some (SEND_MONEY "500" "2pac", "send 500 to 2pac" : str).
Proof.
  assert (H : parseIntent "send 500 to 2pac" = Some (SEND_MONEY "500" "2pac"))
    by (vm_compute; reflexivity).
  assert (Hr : truthy (fst (resolvePhoneOrName "2pac"
                              (store (fresh [david])))) = false)
    by (vm_compute; reflexivity).
  split; [exact H|].
  exact (proj1 (unknown_target "send 500 to 2pac" "500" "2pac"
                  (SEND_MONEY "500" "2pac") (fresh [david]) H
                  (or_introl eq_refl) Hr)).
Defined.

Lemma dialled_head (x : ascii) :
  dial_char x = true -> is_word x || is_space x = true ->
  is_space x = false -> is_digit x = true.
Proof.
  unfold dial_char; intros Hd Hw Hs; rewrite Hs, orb_false_r in Hw.
  destruct (is_digit x); auto; simpl in Hd.
  repeat (apply orb_true_iff in Hd as [Hd | Hd]);
    apply is_char_eq in Hd; subst x; discriminate.
Qed.

Lemma digit_not_separator (x : ascii) :
  is_digit x = true -> separator x = false /\ is_char "+" x = false.
Proof.
  unfold is_digit, separator, is_space, is_char, in_range.
  change (code "-") with 45; change (code "(") with 40;
    change (code ")") with 41; change (code "+") with 43.
  rewrite andb_true_iff, !Nat.leb_le.
  rewrite !orb_false_iff, andb_false_iff, !Nat.leb_gt, !Nat.eqb_neq; lia.
Qed.

(** X21: a dialled number needs no contact.  When the phone-or-name of a
    parsed SEND_MONEY or POCHI is phone-shaped, the session reads back and
    holds the intent with that number normalised, whatever the directory
    holds, and leaves the store as it was. *)
Theorem dialled_target
        (raw a p : str) (i : ParsedIntent) (w : World) :
  parseIntent raw = Some i -> phone_target a p i ->
  phone_shaped p = true ->
  snd (heard_command (Heard raw) w) =
    Some (with_phone i (normalizePhone p), raw) /\
  pendingIntent (fst (heard_command (Heard raw) w)) =
    Some (with_phone i (normalizePhone p)) /\
  store (fst (heard_command (Heard raw) w)) = store w.
Proof.
  intros H Ht Hs.
  assert (Hp : has_phone i = Some p) by (destruct Ht as [-> | ->]; auto).
  destruct (parsed_phone_shape _ _ _ H Hp) as (Htrim & Hh & Hw).
  assert (Hn : truthy (Some (normalizePhone p)) = true).
  { pose proof Hs as Hs'; unfold phone_shaped in Hs'.
    apply andb_true_iff in Hs' as [Hl Hd].
    apply andb_true_iff in Hl as [Hl _]; apply Nat.leb_le in Hl.
    destruct p as [|x r]; [simpl in Hl; lia|].
    simpl in Hd, Hw, Hh.
    apply andb_true_iff in Hd as [Hd _], Hw as [Hw _].
    pose proof (dialled_head x Hd Hw Hh) as Hx.
    destruct (digit_not_separator x Hx) as (Hsep & Hplus).
    unfold normalizePhone, strip; simpl; rewrite Hsep; simpl.
    unfold is_char in Hplus; rewrite Hplus; reflexivity. }
  rewrite (heard_command_target raw a p i w H Ht); cbv zeta.
  unfold resolve_phone, resolvePhoneOrName.
  cbn [store setState setTranscriptRef setTranscript].
  rewrite Htrim, (phone_shaped_isPhoneNumber _ Hs), Hn.
  repeat split.
Qed.

Lemma dialled_target_witness :
  parseIntent "send 500 to 0712 345 678" =
    Some (SEND_MONEY "500" "0712 345 678") /\
  snd (heard_command (Heard "send 500 to 0712 345 678") (fresh [])) =
    Some (SEND_MONEY "500" "0712345678", "send 500 to 0712 345 678" : str).
Proof.
  assert (H : parseIntent "send 500 to 0712 345 678" =
              Some (SEND_MONEY "500" "0712 345 678"))
    by (vm_compute; reflexivity).
  assert (Hs : phone_shaped "0712 345 678" = true)
    by (vm_compute; reflexivity).
  split; [exact H|].
  pose proof (proj1 (dialled_target "send 500 to 0712 345 678" "500"
                       "0712 345 678" (SEND_MONEY "500" "0712 345 678")
                       (fresh []) H (or_introl eq_refl) Hs)) as E.
  rewrite E; vm_compute; reflexivity.
Defined.

(** ** Phone numbers, again *)

Lemma strip_id (cls : ascii -> bool) (s : str) :
  forallb (fun c => negb (cls c)) s = true -> strip cls s = s.
Proof.
  unfold strip; induction s as [|x s IH]; simpl; auto.
  rewrite andb_true_iff; intros [-> H]; now rewrite IH.
Qed.

Lemma forallb_skipn {A} (p : A -> bool) (n : nat) (l : list A) :
  forallb p l = true -> forallb p (skipn n l) = true.
Proof.
  revert l; induction n as [|n IH]; intros [|a l]; simpl; auto.
  rewrite andb_true_iff; intros [_ H]; auto.
Qed.

(** X22: [normalizePhone] gives a normal form: normalising a normalised
    number changes nothing, so a number saved, read and saved again stays
    the same. *)
Theorem normalizePhone_is_idempotent (p : str) :
  normalizePhone (normalizePhone p) = normalizePhone p.
Proof.
  pose proof (normalizePhone_clean p) as Hc.
  unfold normalizePhone at 1; rewrite (strip_id _ _ Hc).
  assert (startsWith (normalizePhone p) "+254" = false) as ->; auto.
  unfold normalizePhone.
  destruct (startsWith (strip separator p) "+254") eqn:E; [reflexivity|exact E].
Qed.

(** ** The access token cache *)

Lemma cached_token_inv (sa : ServiceAccount) (now : N)
      (c : option TokenCache) (t : str) :
  cached_token sa now c = Some t ->
  exists tc,
    c = Some tc /\ clientEmail tc = client_email sa /\
    (now < expiresAt tc)%N /\ t = token tc.
Proof.
  unfold cached_token; destruct c as [tc|]; [|discriminate].
  destruct (str_eqb _ _) eqn:E; [|discriminate].
  destruct (N.ltb_spec now (expiresAt tc)); [|discriminate].
  simpl; intros [= <-]; exists tc; repeat split; auto.
  now apply str_eqb_eq.
Qed.

Lemma getAccessToken_miss (sa : ServiceAccount) (now : N) (tok : str)
      (c : option TokenCache) :
  cached_token sa now c = None ->
  getAccessToken sa now (Granted tok) c =
    (Token tok,
     Some {| clientEmail := client_email sa; token := tok;
             expiresAt := (now + 55 * 60 * 1000)%N |},
     Some (token_claims sa now)).
Proof. intros M; unfold getAccessToken; now rewrite M. Qed.

Lemma ungranted_cache (calls : list Call) (c : option TokenCache) :
  ungranted calls c = true -> cache_after calls c = c.
Proof.
  unfold ungranted; induction calls as [|k calls IH]; simpl; auto.
  rewrite andb_true_iff, negb_true_iff; intros [Hk H].
  assert (snd (fst (call_token k c)) = c) as ->; auto.
  unfold is_grant in Hk; unfold call_token, getAccessToken.
  destruct (cached_token _ _ c); [reflexivity|].
  destruct (answer k); [reflexivity | reflexivity | discriminate].
Qed.

(** X23: the token cache is one slot.  After a call that misses the cache
    and is granted a token at time [t0], and for as long as no later call
    is granted one, a call for the same [client_email] before [t0] plus 55
    minutes returns that token without signing a request, whatever a
    request would have answered, and leaves the cache as it is; a call
    for another [client_email], or at [t0] plus 55 minutes or later, signs
    a new request. *)
Theorem granted_token_is_reused
        (c : option TokenCache) (k0 : Call) (mid : list Call) (k : Call)
        (tok : str) :
  cached_token (account k0) (at_time k0) c = None ->
  answer k0 = Granted tok ->
  ungranted mid (cache_after [k0] c) = true ->
  (client_email (account k) = client_email (account k0) ->
   (at_time k < at_time k0 + 55 * 60 * 1000)%N ->
   call_token k (cache_after (k0 :: mid) c) =
     (Token tok, cache_after (k0 :: mid) c, None)) /\
  (client_email (account k) <> client_email (account k0) \/
   (at_time k0 + 55 * 60 * 1000 <= at_time k)%N ->
   snd (call_token k (cache_after (k0 :: mid) c)) =
     Some (token_claims (account k) (at_time k))).
Proof.
  intros M A U.
  change (cache_after (k0 :: mid) c)
    with (cache_after mid (cache_after [k0] c)).
  rewrite (ungranted_cache _ _ U); clear U.
  assert (cache_after [k0] c =
          Some {| clientEmail := client_email (account k0); token := tok;
                  expiresAt := (at_time k0 + 55 * 60 * 1000)%N |}) as ->.
  { simpl; unfold call_token.
    now rewrite A, (getAccessToken_miss _ _ tok c M). }
  unfold call_token, getAccessToken, cached_token.
  cbn [clientEmail expiresAt token]; split.
  - intros E L; rewrite E, str_eqb_refl; cbn [andb].
    destruct (N.ltb_spec (at_time k) (at_time k0 + 55 * 60 * 1000));
      [reflexivity | lia].
  - intros H.
    assert (str_eqb (client_email (account k0)) (client_email (account k)) &&
            (at_time k <? at_time k0 + 55 * 60 * 1000)%N = false) as ->.
    { apply andb_false_iff; destruct H as [H | H].
      - left; destruct (str_eqb _ _) eqn:E; auto.
        apply str_eqb_eq in E; congruence.
      - right; now apply N.ltb_ge. }
    now destruct (answer k).
Qed.

Lemma granted_token_is_reused_witness :
  call_token
    {| account := {| project_id := "pesa"; private_key := "key";
                     client_email := "fcm@pesa.iam"; token_uri := None |};
       at_time := 3299999; answer := KeyRejected |}
    (cache_after
       [ {| account := {| project_id := "pesa"; private_key := "key";
                          client_email := "fcm@pesa.iam";
                          token_uri := None |};
            at_time := 0; answer := Granted "ya29" |};
         {| account := {| project_id := "pesa"; private_key := "key";
                          client_email := "fcm@pesa.iam";
                          token_uri := None |};
            at_time := 1000; answer := Refused 500 "down" |} ] None) =
    (Token "ya29",
     cache_after
       [ {| account := {| project_id := "pesa"; private_key := "key";
                          client_email := "fcm@pesa.iam";
                          token_uri := None |};
            at_time := 0; answer := Granted "ya29" |};
         {| account := {| project_id := "pesa"; private_key := "key";
                          client_email := "fcm@pesa.iam";
                          token_uri := None |};
            at_time := 1000; answer := Refused 500 "down" |} ] None,
     None).
Proof.
  refine (proj1 (granted_token_is_reused None _ _ _ "ya29" _ _ _) _ _).
  - reflexivity.
  - reflexivity.
  - vm_compute; reflexivity.
  - reflexivity.
  - vm_compute; reflexivity.
Defined.

Lemma call_token_granted (hist : list Call) (k : Call)
      (c : option TokenCache) :
  granted_by hist c ->
  granted_by (hist ++ [k]) (snd (fst (call_token k c))).
Proof.
  intros G.
  assert (granted_by (hist ++ [k]) c) as G'.
  { destruct c as [tc|]; simpl in *; auto.
    destruct G as (k0 & I & R); exists k0; split; auto.
    apply in_or_app; now left. }
  unfold call_token, getAccessToken.
  destruct (cached_token _ _ c); cbn [fst snd]; auto.
  destruct (answer k) eqn:A; cbn [fst snd]; auto.
  exists k; cbn [token clientEmail expiresAt]; repeat split; auto.
  apply in_or_app; right; now left.
Qed.

Lemma cache_after_granted (calls hist : list Call) (c : option TokenCache) :
  granted_by hist c -> granted_by (hist ++ calls) (cache_after calls c).
Proof.
  revert hist c; induction calls as [|k calls IH]; intros hist c G; simpl.
  - now rewrite app_nil_r.
  - replace (hist ++ k :: calls) with ((hist ++ [k]) ++ calls)
      by (rewrite <- app_assoc; reflexivity).
    apply IH, call_token_granted, G.
Qed.

Lemma serve_nth (pre : list Call) (k : Call) (post : list Call)
      (c : option TokenCache) :
  nth_error (serve (pre ++ k :: post) c) (length pre) =
  Some (fst (fst (call_token k (cache_after pre c)))).
Proof.
  revert c; induction pre as [|k0 pre IH]; intros c; simpl; auto.
Qed.

(** X24: in any series of calls starting with an empty cache, a token a
    call returns was either granted to that very call, or granted to an
    earlier call for the same account less than 55 minutes before: a token
    is never served to another account, and never once it is 55 minutes
    old. *)
Theorem served_token_was_granted (pre : list Call) (k : Call)
        (post : list Call) (tok : str) :
  nth_error (serve (pre ++ k :: post) None) (length pre) =
    Some (Token tok) ->
  answer k = Granted tok \/
  exists k0,
    In k0 pre /\ answer k0 = Granted tok /\
    client_email (account k0) = client_email (account k) /\
    (at_time k < at_time k0 + 55 * 60 * 1000)%N.
Proof.
  rewrite serve_nth; intros [= H].
  pose proof (cache_after_granted pre [] None I) as G; simpl in G.
  unfold call_token, getAccessToken in H.
  destruct (cached_token _ _ _) as [t|] eqn:E.
  - cbn [fst] in H; injection H as ->.
    apply cached_token_inv in E; destruct E as (tc & Ec & Em & Lt & ->).
    rewrite Ec in G; destruct G as (k0 & In0 & A & Em0 & Ex).
    right; exists k0; repeat split; auto.
    + congruence.
    + now rewrite <- Ex.
  - destruct (answer k); cbn [fst] in H; try discriminate.
    left; congruence.
Qed.

Lemma served_token_was_granted_witness :
  exists k0,
    In k0 [ {| account := {| project_id := "pesa"; private_key := "key";
                             client_email := "fcm@pesa.iam";
                             token_uri := None |};
               at_time := 1000; answer := Granted "ya29" |} ] /\
    answer k0 = Granted "ya29" /\
    client_email (account k0) = "fcm@pesa.iam" /\
    (2000 < at_time k0 + 55 * 60 * 1000)%N.
Proof.
  assert (nth_error
            (serve
               ([ {| account := {| project_id := "pesa"; private_key := "key";
                                   client_email := "fcm@pesa.iam";
                                   token_uri := None |};
                     at_time := 1000; answer := Granted "ya29" |} ] ++
                {| account := {| project_id := "pesa"; private_key := "key";
                                 client_email := "fcm@pesa.iam";
                                 token_uri := None |};
                   at_time := 2000; answer := Refused 500 "down" |} :: [])
               None) 1 = Some (Token "ya29")) as H
    by (vm_compute; reflexivity).
  destruct (served_token_was_granted _ _ _ _ H) as [A | G].
  - discriminate A.
  - exact G.
Defined.

(** ** Cancelling under scheduling *)

(** X25: [cancel] resets the hook but does not abort a run of [start]
    that is waiting for the spoken reply: when that capture then delivers
    an affirmative reply, the run executes the intent it holds and hands
    it to the submission callback, although the hook was idle with nothing
    pending. *)
Theorem cancel_keeps_the_reply_capture (isSupported : bool) (c : Config)
        (n : nat) (i : ParsedIntent) (raw resp : str) :
  nth_error (tasks c) n = Some (AwaitReply i raw) ->
  affirmative resp = true ->
  state (world (step isSupported c EvCancel)) = idle /\
  pendingIntent (world (step isSupported c EvCancel)) = None /\
  pendingIntentRef (world (step isSupported c EvCancel)) = None /\
  exists saved,
    effects (world (step isSupported (step isSupported c EvCancel)
                         (EvReply n (Heard resp)))) =
      effects (world (step isSupported c EvCancel)) ++ saved ++
      [CancelSpeech; Speak "Perfect, sending now via remote push.";
       Dismiss; Submit i].
Proof.
  intros T A.
  repeat match goal with |- _ /\ _ => split end; try reflexivity.
  cbn [step tasks world]; rewrite T; cbn [world].
  unfold heard_reply; rewrite affirm_re_affirmative, A.
  destruct (executeConfirm_inv i raw (cancel (world c))) as (saved & E & _).
  exists saved; exact E.
Qed.

Lemma cancel_keeps_the_reply_capture_witness :
  exists saved,
    effects
      (world
         (step true
            (step true
               (exec true (directory [david])
                  [EvStart; EvCommand 0 (Heard "pay till 522533 500");
                   EvSpoken 0]) EvCancel)
            (EvReply 0 (Heard "okay")))) =
      effects
        (world
           (step true
              (exec true (directory [david])
                 [EvStart; EvCommand 0 (Heard "pay till 522533 500");
                  EvSpoken 0]) EvCancel)) ++ saved ++
      [CancelSpeech; Speak "Perfect, sending now via remote push.";
       Dismiss; Submit (TILL "500" "522533")].
Proof.
  assert (nth_error
            (tasks (exec true (directory [david])
                      [EvStart; EvCommand 0 (Heard "pay till 522533 500");
                       EvSpoken 0])) 0 =
          Some (AwaitReply (TILL "500" "522533") "pay till 522533 500")) as T
    by (vm_compute; reflexivity).
  assert (affirmative "okay" = true) as A by (vm_compute; reflexivity).
  exact (proj2 (proj2 (proj2
           (cancel_keeps_the_reply_capture true _ 0 _ _ "okay" T A)))).
Defined.

(** ** The readback *)

Lemma is_decimal_shape (w : str) :
  is_decimal w = true ->
  exists x r,
    w = x :: r /\ is_digit x = true /\
    forallb (fun c => is_digit c || is_char "." c) r = true.
Proof.
  unfold is_decimal, test; destruct (match_at_start decimal_re w) eqn:E;
    [intros _|discriminate].
  apply match_at_start_sound in E; destruct E as (w1 & rest & -> & M).
  simpl in M.
  destruct M as (d & o & c1 & -> & (D & L & _) & o1 & e & c2 & -> & O &
                 -> & -> & _).
  destruct d as [|x d]; [simpl in L; lia|].
  simpl in D; apply andb_true_iff in D as [Dx D].
  exists x, (d ++ o1); rewrite !app_nil_r; repeat split; auto.
  rewrite forallb_app; apply andb_true_iff; split.
  - apply forallb_forall; intros y Hy.
    rewrite forallb_forall in D; now rewrite (D y Hy).
  - destruct O as [(p & d2 & c3 & -> & (y & -> & Py & _) & D2 & _) | [-> _]];
      [|reflexivity].
    simpl; rewrite Py, orb_true_r; simpl.
    apply forallb_forall; intros z Hz.
    rewrite forallb_forall in D2; now rewrite (D2 z Hz).
Qed.

Lemma split_at (stop : ascii -> bool) (x x' : str) (c c' : ascii)
      (r r' : str) :
  forallb (fun y => negb (stop y)) x = true ->
  forallb (fun y => negb (stop y)) x' = true ->
  stop c = true -> stop c' = true ->
  x ++ c :: r = x' ++ c' :: r' -> x = x' /\ r = r'.
Proof.
  intros Hx Hx' Hc Hc'; revert x' Hx'.
  induction x as [|y x IH]; intros [|y' x'] Hx'; simpl; intros [= E1 E2].
  - auto.
  - subst; simpl in Hx'; rewrite Hc in Hx'; discriminate.
  - subst; simpl in Hx; rewrite Hc' in Hx; discriminate.
  - simpl in Hx, Hx'; apply andb_true_iff in Hx as [_ Hx].
    apply andb_true_iff in Hx' as [_ Hx'].
    destruct (IH Hx x' Hx' E2) as [-> ->]; subst; auto.
Qed.

Lemma digit_or_point_not_space (c : ascii) :
  is_digit c || is_char "." c = true -> is_space c = false.
Proof.
  unfold is_digit, is_char, is_space, in_range.
  rewrite !orb_true_iff, !andb_true_iff, !Nat.leb_le, !Nat.eqb_eq.
  rewrite !orb_false_iff, andb_false_iff, !Nat.leb_gt, !Nat.eqb_neq.
  change (code ".") with 46; lia.
Qed.

Lemma decimal_spaceless (a : str) :
  is_decimal a = true -> forallb (fun y => negb (is_space y)) a = true.
Proof.
  intros D; destruct (is_decimal_shape a D) as (x & r & -> & Dx & Dr).
  simpl; rewrite (digit_or_point_not_space x) by (now rewrite Dx); simpl.
  apply forallb_forall; intros y Hy.
  rewrite forallb_forall in Dr; now rewrite digit_or_point_not_space by auto.
Qed.

Lemma commaless (n : str) :
  has_comma n = false ->
  forallb (fun y => negb (is_char "," y)) n = true.
Proof.
  unfold has_comma; induction n as [|x n IH]; simpl; auto.
  intros H; apply orb_false_iff in H as [-> H]; simpl; auto.
Qed.

Ltac peel E := simpl in E; repeat (injection E as E).

Ltac cut_at stop E :=
  let E1 := fresh "E" in
  apply (split_at stop) in E;
  [destruct E as [E1 E]; subst | assumption | assumption | reflexivity
  | reflexivity].

Ltac last_field E := apply app_inv_tail in E; subst; reflexivity.

Lemma digits_no_comma (n : str) : digits n -> has_comma n = false.
Proof.
  intros [_ D]; unfold has_comma; induction n as [|x n IH]; simpl; auto.
  simpl in D; apply andb_true_iff in D as [Dx D]; rewrite (IH D).
  unfold is_digit, in_range in Dx; unfold is_char.
  apply andb_true_iff in Dx as [D1 D2]; apply Nat.leb_le in D1, D2.
  rewrite orb_false_r; apply Nat.eqb_neq; change (code ",") with 44; lia.
Qed.

(** X26: the readback tells payments apart.  Two intents whose amounts are
    decimal numbers and whose numbers hold no comma are read back by
    [describeIntent] with the same sentence only when they are the same
    intent: same kind, same amount, same target; and every intent
    [parseIntent] returns is such an intent, so two transcripts that are
    read back alike were parsed alike. *)
Theorem readback_is_unambiguous :
  (forall i j,
    legible i -> legible j ->
    describeIntent i = describeIntent j -> i = j) /\
  (forall t i, parseIntent t = Some i -> legible i) /\
  (forall t t' i j,
    parseIntent t = Some i -> parseIntent t' = Some j ->
    describeIntent i = describeIntent j -> i = j).
Proof.
  assert (forall i j,
           legible i -> legible j ->
           describeIntent i = describeIntent j -> i = j) as Inj.
  { intros i j.
    intros [Di Ni] [Dj Nj] E.
    pose proof (decimal_spaceless _ Di) as Si.
    pose proof (decimal_spaceless _ Dj) as Sj.
    destruct (is_decimal_shape _ Di) as (xi & ri & Ai & Xi & _).
    destruct (is_decimal_shape _ Dj) as (xj & rj & Aj & Xj & _).
    destruct i, j; cbn [amount numbers_of] in *;
      try (simpl in E; discriminate E); peel E.
    all: repeat match goal with
           | H : Forall _ (_ :: _) |- _ => inversion_clear H
           | H : has_comma _ = false |- _ => apply commaless in H
           end.
    - clear Ai Aj; cut_at is_space E; peel E; last_field E.
    - clear Ai Aj; cut_at is_space E; peel E; last_field E.
    - clear Ai Aj; cut_at (is_char ",") E; peel E; cut_at (is_char ",") E;
        peel E; last_field E.
    - rewrite Aj in E; peel E; subst xj; vm_compute in Xj; discriminate Xj.
    - clear Ai Aj; cut_at (is_char ",") E; peel E; last_field E.
    - clear Ai Aj; cut_at is_space E; peel E; cut_at (is_char ",") E; peel E;
        last_field E.
    - rewrite Ai in E; peel E; subst xi; vm_compute in Xi; discriminate Xi.
    - clear Ai Aj; cut_at is_space E; peel E; last_field E.
  }
  assert (forall t i, parseIntent t = Some i -> legible i) as Leg.
  { intros t i.
    intros H; split.
    - destruct (parseIntent_amount _ _ H) as (w & Hw & ->).
      now apply normalized_decimal.
    - unfold parseIntent in H.
      destruct (match_at_start send_re (trim t)) as [m|] eqn:E1.
      { injection H as <-; constructor. }
      destruct (match_at_start pochi_re (trim t)) as [m|] eqn:E2.
      { injection H as <-; constructor. }
      destruct (match_at_start paybill_re (trim t)) as [m|] eqn:E3.
      { injection H as <-; simpl.
        apply Forall_cons; [|apply Forall_cons; [|apply Forall_nil]];
          apply digits_no_comma.
        - eapply (template_number 1); eauto; reflexivity.
        - eapply (template_number 2); eauto; reflexivity. }
      destruct (match_at_start till_re (trim t)) as [m|] eqn:E4.
      { injection H as <-; simpl.
        apply Forall_cons; [|apply Forall_nil]; apply digits_no_comma.
        eapply (template_number 1); eauto; reflexivity. }
      destruct (match_at_start withdraw_re (trim t)) as [m|] eqn:E5.
      { injection H as <-; simpl.
        apply Forall_cons; [|apply Forall_cons; [|apply Forall_nil]];
          apply digits_no_comma.
        - eapply (template_number 2); eauto; reflexivity.
        - eapply (template_number 3); eauto; reflexivity. }
      destruct (match_at_start named_re (trim t)) as [m|] eqn:E6;
        [|discriminate].
      injection H as <-; constructor.
  }
  split; [exact Inj|]; split; [exact Leg|].
  intros t t' i j Hi Hj; apply Inj; eapply Leg; eauto.
Qed.
